(** * A disk-paged B-tree index: the block store, the node codec and the tree
      operations of [main.py], embedded as Rocq functions.

    Python objects are mutable and shared: a [BTreeNode] handed out by
    [read_node] is the very object the cache holds, so the embedding keeps a
    heap of node objects and passes references around.  Every method is a
    computation in a state-and-exception monad over the [FileManager]
    attributes, the bytes of the backing file and that heap; a raised
    exception keeps every mutation made before it, as in Python. *)

From Stdlib Require Import ZArith List Lia Bool Sorted Permutation.
From Stdlib Require Ascii String.
From coqutil Require Import Byte Word.LittleEndianList.
Import ListNotations Ascii.AsciiSyntax String.StringSyntax.
Delimit Scope char_scope with char.
Delimit Scope string_scope with string.
Local Open Scope Z_scope.

(** ** Constants (lines 22-27) *)

Definition BLOCK_SIZE : Z := 512.
(** The ASCII bytes of ["4348PRJ3"]. *)
Definition MAGIC : list byte :=
  map byte.of_Z [52; 51; 52; 56; 80; 82; 74; 51].
Definition T : Z := 10.
Definition MAX_KEYS : Z := 2 * T - 1.
Definition MAX_CHILDREN : Z := 2 * T.
Definition CACHE_SIZE : Z := 3.

(** ** Exceptions and the two monads *)

(** The Python exceptions the modelled code can raise.  [SeekError] stands
    for the error [fd.seek] raises on a negative or oversized offset;
    [SyntaxError] for a line Python cannot read as a statement;
    [BadReference] is not a Python exception: it marks a reference outside
    the heap, which no run of the program produces. *)
Inductive exn : Set :=
| AttributeError | TypeError | ValueError | StructError | IndexError
| SeekError | RecursionError | SyntaxError | BadReference.

Inductive outcome (A : Type) : Type :=
| Ok (a : A)
| Raise (e : exn).
Arguments Ok {A} a.
Arguments Raise {A} e.

Definition bindO {A B} (m : outcome A) (k : A -> outcome B) : outcome B :=
  match m with
  | Ok a => k a
  | Raise e => Raise e
  end.

Declare Scope pure_scope.
Delimit Scope pure_scope with pure.
Notation "x <-- m ;; k" := (bindO m (fun x => k))
  (at level 61, m at next level, right associativity) : pure_scope.

(** ** Python list subscripts *)

Definition len {A} (l : list A) : Z := Z.of_nat (length l).

(** [l[i]]: a negative subscript counts from the end; out of range raises
    IndexError. *)
Definition getitem {A} (l : list A) (i : Z) : outcome A :=
  let j := if i <? 0 then i + len l else i in
  if j <? 0 then Raise IndexError
  else match nth_error l (Z.to_nat j) with
       | Some x => Ok x
       | None => Raise IndexError
       end.

Fixpoint replace_nth {A} (n : nat) (x : A) (l : list A) : list A :=
  match l, n with
  | [], _ => []
  | _ :: l', O => x :: l'
  | y :: l', S n' => y :: replace_nth n' x l'
  end.

(** [l[i] = x]. *)
Definition setitem {A} (l : list A) (i : Z) (x : A) : outcome (list A) :=
  let j := if i <? 0 then i + len l else i in
  if (j <? 0) || (len l <=? j) then Raise IndexError
  else Ok (replace_nth (Z.to_nat j) x l).

(** [l.insert(i, x)]: the position is clamped to the list. *)
Definition list_insert {A} (l : list A) (i : Z) (x : A) : list A :=
  let j := if i <? 0 then Z.max 0 (i + len l) else i in
  firstn (Z.to_nat j) l ++ x :: skipn (Z.to_nat j) l.

(** [l[:n]] and [l[n:]] for a bound [n >= 0]. *)
Definition slice_to {A} (l : list A) (n : Z) : list A := firstn (Z.to_nat n) l.
Definition slice_from {A} (l : list A) (n : Z) : list A := skipn (Z.to_nat n) l.

(** ** [struct]: 8-byte unsigned big-endian integers *)

(** [struct.pack_into('>Q', ...)] of one value: the most significant byte
    first; a value outside [0, 2^64) raises [struct.error]. *)
Definition pack_Q (v : Z) : outcome (list byte) :=
  if (0 <=? v) && (v <? 2 ^ 64) then Ok (rev (le_split 8 v))
  else Raise StructError.

Definition unpack_Q (bs : list byte) : Z := le_combine (rev bs).

(** Cut a byte string into [n] consecutive 8-byte integers. *)
Fixpoint unpack_Qs (n : nat) (bs : list byte) : list Z :=
  match n with
  | O => []
  | S n' => unpack_Q (firstn 8 bs) :: unpack_Qs n' (skipn 8 bs)
  end.

(** Unpacking [n] big-endian fields at [offset], as [struct.unpack_from]
    does for a format of [n] codes [Q] behind one byte-order mark:
    [struct.error] when fewer than [8*n] bytes remain after [offset]. *)
Definition unpack_from (n : nat) (data : list byte) (offset : Z)
  : outcome (list Z) :=
  if len data - offset <? 8 * Z.of_nat n then Raise StructError
  else Ok (unpack_Qs n (skipn (Z.to_nat offset) data)).

(** *** Format strings *)

(** The formats this program writes are made of the byte-order mark [>] and
    the code [Q].  [struct] takes the mark as the first character only:
    anywhere else it is a "bad char in struct format", and the call raises
    [struct.error] whatever the buffer holds.  [fields] is the number of
    values a format asks for, if [struct] can read it.  Every format of
    the program starts with the mark; one without it is counted the same
    way. *)
Fixpoint codes (f : String.string) : option nat :=
  match f with
  | String.EmptyString => Some O
  | String.String c f' =>
      if Ascii.eqb c "Q"%char then option_map S (codes f') else None
  end.

Definition fields (f : String.string) : option nat :=
  match f with
  | String.String c f' => if Ascii.eqb c ">"%char then codes f' else codes f
  | String.EmptyString => Some O
  end.

(** [s * n] on strings. *)
Fixpoint str_mul (s : String.string) (n : nat) : String.string :=
  match n with
  | O => String.EmptyString
  | S n' => String.append s (str_mul s n')
  end.

(** [struct.unpack_from(format, data, offset)]. *)
Definition struct_unpack_from (format : String.string) (data : list byte)
  (offset : Z) : outcome (list Z) :=
  match fields format with
  | Some n => unpack_from n data offset
  | None => Raise StructError
  end.

(** ** Nodes (class BTreeNode, lines 117-165) *)

(** The constructor stores its [children] argument in the attribute
    [num_children]; the attribute [children], which [traverse],
    [split_child] and [insert_nonfull] read, exists on an object only once
    somebody has assigned it, hence the option. *)
Record BTreeNode : Type := mkNode {
  block_id : Z;
  parent_id : Z;
  keys : list Z;
  num_children : list Z;
  values : list Z;
  children : option (list Z)
}.

(** [BTreeNode(block_id, parent_id, keys, values, children)]. *)
Definition BTreeNode_init (bid pid : Z) (ks vs ch : list Z) : BTreeNode :=
  mkNode bid pid ks ch vs None.

Definition is_leaf (n : BTreeNode) : bool := len (num_children n) =? 0.

Definition HEADER_FMT : String.string := ">QQQ"%string.

(** [from_bytes] (lines 127-141).  The header is read with [HEADER_FMT];
    the three arrays are asked for with ['>Q' * MAX_KEYS] and
    ['>Q' * MAX_CHILDREN], the mark repeated before every code. *)
Definition from_bytes (data : list byte) : outcome BTreeNode :=
  (hdr <-- struct_unpack_from HEADER_FMT data 0 ;;
   let bid := nth 0 hdr 0 in
   let pid := nth 1 hdr 0 in
   let nkeys := nth 2 hdr 0 in
   let offset := 24 in
   ks <-- struct_unpack_from (str_mul ">Q"%string (Z.to_nat MAX_KEYS))
            data offset ;;
   let offset := offset + 8 * MAX_KEYS in
   vals <-- struct_unpack_from (str_mul ">Q"%string (Z.to_nat MAX_KEYS))
              data offset ;;
   let offset := offset + 8 * MAX_KEYS in
   ch <-- struct_unpack_from (str_mul ">Q"%string (Z.to_nat MAX_CHILDREN))
            data offset ;;
   let ks := slice_to ks nkeys in
   let vals := slice_to vals nkeys in
   let ch := slice_to ch (nkeys + 1) in
   Ok (BTreeNode_init bid pid ks vals ch))%pure.

(** A slot loop of [to_bytes]: [n] slots packed in turn, slot [i] holding
    [l[i] if i < len(l) else 0]. *)
Fixpoint pack_slots (n : nat) (l : list Z) : outcome (list byte) :=
  match n with
  | O => Ok []
  | S n' =>
      (b <-- pack_Q (match l with x :: _ => x | [] => 0 end) ;;
       rest <-- pack_slots n' (tl l) ;;
       Ok (b ++ rest))%pure
  end.

(** [to_bytes] (lines 143-162): a 512-byte buffer, zero where nothing is
    packed. *)
Definition to_bytes (n : BTreeNode) : outcome (list byte) :=
  (b0 <-- pack_Q (block_id n) ;;
   b1 <-- pack_Q (parent_id n) ;;
   b2 <-- pack_Q (len (keys n)) ;;
   ks <-- pack_slots (Z.to_nat MAX_KEYS) (keys n) ;;
   vs <-- pack_slots (Z.to_nat MAX_KEYS) (values n) ;;
   cs <-- pack_slots (Z.to_nat MAX_CHILDREN) (num_children n) ;;
   Ok (b0 ++ b1 ++ b2 ++ ks ++ vs ++ cs ++ repeat (byte.of_Z 0) 24))%pure.

(** ** The store: FileManager attributes, backing file and object heap *)

(** A reference to a [BTreeNode] object. *)
Definition ref : Set := nat.

(** [fd] holds the bytes of the backing file, [cache] the OrderedDict in its
    key order (oldest first), [heap] the node objects created so far. *)
Record State : Type := mkState {
  fd : list byte;
  root_id : Z;
  next_block_id : Z;
  cache : list (Z * ref);
  heap : list BTreeNode
}.

Definition set_fd (x : list byte) (s : State) : State :=
  mkState x (root_id s) (next_block_id s) (cache s) (heap s).
Definition set_root_id (x : Z) (s : State) : State :=
  mkState (fd s) x (next_block_id s) (cache s) (heap s).
Definition set_next_block_id (x : Z) (s : State) : State :=
  mkState (fd s) (root_id s) x (cache s) (heap s).
Definition set_cache (x : list (Z * ref)) (s : State) : State :=
  mkState (fd s) (root_id s) (next_block_id s) x (heap s).
Definition set_heap (x : list BTreeNode) (s : State) : State :=
  mkState (fd s) (root_id s) (next_block_id s) (cache s) x.

Definition M (A : Type) : Type := State -> outcome A * State.

Definition ret {A} (a : A) : M A := fun s => (Ok a, s).
Definition raise {A} (e : exn) : M A := fun s => (Raise e, s).
Definition bind {A B} (m : M A) (k : A -> M B) : M B :=
  fun s => match m s with
           | (Ok a, s') => k a s'
           | (Raise e, s') => (Raise e, s')
           end.
Definition lift {A} (o : outcome A) : M A := fun s => (o, s).
Definition gets {A} (f : State -> A) : M A := fun s => (Ok (f s), s).
Definition modify (f : State -> State) : M unit := fun s => (Ok tt, f s).

Declare Scope monad_scope.
Delimit Scope monad_scope with monad.
Notation "x <- m ;; k" := (bind m (fun x => k))
  (at level 61, m at next level, right associativity) : monad_scope.
Notation "m ;; k" := (bind m (fun _ => k))
  (at level 61, right associativity) : monad_scope.
Local Open Scope monad_scope.

(** *** Node objects *)

Definition new_node (n : BTreeNode) : M ref :=
  fun s => (Ok (length (heap s)), set_heap (heap s ++ [n]) s).

Definition deref (r : ref) : M BTreeNode :=
  fun s => match nth_error (heap s) r with
           | Some n => (Ok n, s)
           | None => (Raise BadReference, s)
           end.

(** An attribute assignment on the object [r]. *)
Definition assign (r : ref) (f : BTreeNode -> BTreeNode) : M unit :=
  n <- deref r ;;
  modify (fun s => set_heap (replace_nth r (f n) (heap s)) s).

Definition with_parent_id (x : Z) (n : BTreeNode) : BTreeNode :=
  mkNode (block_id n) x (keys n) (num_children n) (values n) (children n).
Definition with_keys (x : list Z) (n : BTreeNode) : BTreeNode :=
  mkNode (block_id n) (parent_id n) x (num_children n) (values n) (children n).
Definition with_values (x : list Z) (n : BTreeNode) : BTreeNode :=
  mkNode (block_id n) (parent_id n) (keys n) (num_children n) x (children n).
Definition with_children (x : list Z) (n : BTreeNode) : BTreeNode :=
  mkNode (block_id n) (parent_id n) (keys n) (num_children n) (values n)
         (Some x).

(** Reading [node.children]: AttributeError on an object that has none. *)
Definition get_children (n : BTreeNode) : outcome (list Z) :=
  match children n with
  | Some ch => Ok ch
  | None => Raise AttributeError
  end.

(** *** The backing file *)

Fixpoint bytes_eqb (a b : list byte) : bool :=
  match a, b with
  | [], [] => true
  | x :: a', y :: b' => Byte.eqb x y && bytes_eqb a' b'
  | _, _ => false
  end.

Definition zeros (n : Z) : list byte := repeat (byte.of_Z 0) (Z.to_nat n).

(** [fd.seek(pos)]: refuses a negative offset and one that does not fit a
    signed 64-bit file offset. *)
Definition seek_ok (pos : Z) : bool := (0 <=? pos) && (pos <? 2 ^ 63).

(** [fd.seek(pos); fd.read(n)]: what the file holds from [pos] on, at most
    [n] bytes. *)
Definition fd_read_at (pos n : Z) : M (list byte) :=
  if seek_ok pos
  then gets (fun s => firstn (Z.to_nat n) (skipn (Z.to_nat pos) (fd s)))
  else raise SeekError.

(** The file after [data] is written at [pos]; a gap past the end of the
    file reads as zeros. *)
Definition write_at (pos : Z) (data old : list byte) : list byte :=
  firstn (Z.to_nat pos) old ++ zeros (pos - len old) ++ data
    ++ skipn (Z.to_nat (pos + len data)) old.

(** [fd.seek(pos); fd.write(data); fd.flush()]. *)
Definition fd_write_at (pos : Z) (data : list byte) : M unit :=
  if seek_ok pos
  then modify (fun s => set_fd (write_at pos data (fd s)) s)
  else raise SeekError.

(** ** class FileManager (lines 32-110) *)

(** [FileManager(path)] next to the bytes [file] found at [path]; no node
    object exists yet. *)
Definition FileManager_init (file : list byte) : State :=
  mkState file 0 1 [] [].

(** The 512-byte header block built by [open] and [sync_header]. *)
Definition header_block (root next : Z) : outcome (list byte) :=
  (b1 <-- pack_Q root ;;
   b2 <-- pack_Q next ;;
   Ok (MAGIC ++ b1 ++ b2 ++ zeros (BLOCK_SIZE - 24)))%pure.

(** [struct.unpack(format, buffer)] takes exactly two arguments; lines 59
    and 60 pass an offset as a third one, which raises TypeError before
    anything is unpacked. *)
Definition struct_unpack_3 (buffer : list byte) (offset : Z) : outcome Z :=
  Raise TypeError.

(** [open] (lines 40-60), on a path that exists.  Mode ['w+b'] empties the
    file. *)
Definition open_ (create : bool) : M unit :=
  if create then
    modify (set_fd []) ;;
    buf <- lift (header_block 0 1) ;;
    fd_write_at 0 buf
  else
    hdr <- fd_read_at 0 BLOCK_SIZE ;;
    if negb (bytes_eqb (slice_to hdr 8) MAGIC) then raise ValueError
    else
      r <- lift (struct_unpack_3 hdr 8) ;;
      modify (set_root_id r) ;;
      n <- lift (struct_unpack_3 hdr 16) ;;
      modify (set_next_block_id n).

(** [sync_header] (lines 62-69). *)
Definition sync_header : M unit :=
  r <- gets root_id ;;
  n <- gets next_block_id ;;
  buf <- lift (header_block r n) ;;
  fd_write_at 0 buf.

(** [allocate_block] (lines 71-75). *)
Definition allocate_block : M Z :=
  bid <- gets next_block_id ;;
  modify (set_next_block_id (bid + 1)) ;;
  sync_header ;;
  ret bid.

(** *** The OrderedDict *)

Fixpoint cache_get (k : Z) (c : list (Z * ref)) : option ref :=
  match c with
  | [] => None
  | (k', r) :: c' => if k' =? k then Some r else cache_get k c'
  end.

(** [cache.pop(k)], the entry removed. *)
Definition cache_pop (k : Z) (c : list (Z * ref)) : list (Z * ref) :=
  filter (fun e => negb (fst e =? k)) c.

(** [cache[k] = r]: a key already present keeps its place in the order, a
    new key goes last. *)
Fixpoint cache_set (k : Z) (r : ref) (c : list (Z * ref)) : list (Z * ref) :=
  match c with
  | [] => [(k, r)]
  | (k', r') :: c' =>
      if k' =? k then (k, r) :: c' else (k', r') :: cache_set k r c'
  end.

(** [if len(cache) > CACHE_SIZE: cache.popitem(last=False)]. *)
Definition evict (c : list (Z * ref)) : list (Z * ref) :=
  if len c >? CACHE_SIZE then tl c else c.

(** [read_node] (lines 77-93). *)
Definition read_node (bid : Z) : M ref :=
  c <- gets cache ;;
  match cache_get bid c with
  | Some node =>
      modify (fun s => set_cache (cache_pop bid (cache s)) s) ;;
      modify (fun s => set_cache (cache_set bid node (cache s)) s) ;;
      ret node
  | None =>
      data <- fd_read_at (bid * BLOCK_SIZE) BLOCK_SIZE ;;
      nd <- lift (from_bytes data) ;;
      node <- new_node nd ;;
      modify (fun s => set_cache (cache_set bid node (cache s)) s) ;;
      modify (fun s => set_cache (evict (cache s)) s) ;;
      ret node
  end.

(** [write_node] (lines 95-104). *)
Definition write_node (node : ref) : M unit :=
  nd <- deref node ;;
  data <- lift (to_bytes nd) ;;
  fd_write_at (block_id nd * BLOCK_SIZE) data ;;
  modify (fun s => set_cache (cache_set (block_id nd) node (cache s)) s) ;;
  modify (fun s => set_cache (evict (cache s)) s).

(** ** class BTree (lines 208-329) *)

(** Recursion depth is bounded by [fuel], as by Python's recursion limit:
    a call made with no fuel left raises RecursionError. *)

(** The scan of [search], [while i < len(keys) and key > keys[i]: i += 1],
    run on the keys from position [i] on. *)
Fixpoint scan_up (key : Z) (ks : list Z) (i : Z) : Z :=
  match ks with
  | k :: ks' => if key >? k then scan_up key ks' (i + 1) else i
  | [] => i
  end.

(** The test of line 221, [i < len(keys) and key > keys[i]]. *)
Definition found_at (key : Z) (ks : list Z) (i : Z) : outcome bool :=
  if i <? len ks then (k <-- getitem ks i ;; Ok (key >? k))%pure
  else Ok false.

(** [search] (lines 212-225); [None] is Python's [None]. *)
Fixpoint search (fuel : nat) (bid key : Z) : M (option Z) :=
  match fuel with
  | O => raise RecursionError
  | S fuel' =>
      if bid =? 0 then ret None
      else
        node <- read_node bid ;;
        nd <- deref node ;;
        let i := scan_up key (keys nd) 0 in
        hit <- lift (found_at key (keys nd) i) ;;
        if hit : bool then
          v <- lift (getitem (values nd) i) ;;
          ret (Some v)
        else if is_leaf nd then ret None
        else
          c <- lift (getitem (num_children nd) i) ;;
          search fuel' c key
  end.

(** [traverse] (lines 227-236) with the visitor of [collect], which appends
    the pair to [pairs].  Nothing here assigns to a node object, so the
    attributes read once from [node] are the ones every later line sees. *)
Fixpoint traverse (fuel : nat) (bid : Z) (pairs : list (Z * Z))
  : M (list (Z * Z)) :=
  match fuel with
  | O => raise RecursionError
  | S fuel' =>
      if bid =? 0 then ret pairs
      else
        node <- read_node bid ;;
        nd <- deref node ;;
        pairs <-
          (fix loop (i : Z) (ks : list Z) (pairs : list (Z * Z))
             : M (list (Z * Z)) :=
             match ks with
             | [] => ret pairs
             | k :: ks' =>
                 pairs <-
                   (if negb (is_leaf nd) then
                      ch <- lift (get_children nd) ;;
                      c <- lift (getitem ch i) ;;
                      traverse fuel' c pairs
                    else ret pairs) ;;
                 v <- lift (getitem (values nd) i) ;;
                 loop (i + 1) ks' (pairs ++ [(k, v)])
             end) 0 (keys nd) pairs ;;
        if negb (is_leaf nd) then
          ch <- lift (get_children nd) ;;
          c <- lift (getitem ch (len (keys nd))) ;;
          traverse fuel' c pairs
        else ret pairs
  end.

(** [collect] (lines 238-241). *)
Definition collect (fuel : nat) : M (list (Z * Z)) :=
  r <- gets root_id ;;
  traverse fuel r [].

(** The loop of [split_child] over the children handed to the new node
    (lines 287-291). *)
Fixpoint reparent (cs : list Z) (z_bid : Z) : M unit :=
  match cs with
  | [] => ret tt
  | c :: cs' =>
      (if negb (c =? 0) then
         child <- read_node c ;;
         assign child (with_parent_id z_bid) ;;
         write_node child
       else ret tt) ;;
      reparent cs' z_bid
  end.

(** [split_child] (lines 269-301). *)
Definition split_child (parent : ref) (i : Z) : M unit :=
  let t := T in
  p <- deref parent ;;
  pch <- lift (get_children p) ;;
  c <- lift (getitem pch i) ;;
  y <- read_node c ;;
  z_bid <- allocate_block ;;
  p <- deref parent ;;
  z <- new_node (BTreeNode_init z_bid (block_id p) [] [] []) ;;
  yn <- deref y ;;
  mid_key <- lift (getitem (keys yn) (t - 1)) ;;
  mid_val <- lift (getitem (values yn) (t - 1)) ;;
  assign z (with_keys (slice_to (keys yn) t)) ;;
  assign z (with_values (slice_to (values yn) t)) ;;
  assign y (fun n => with_keys (slice_to (keys n) (t - 1)) n) ;;
  assign y (fun n => with_values (slice_to (values n) (t - 1)) n) ;;
  yn <- deref y ;;
  (if negb (is_leaf yn) then
     ych <- lift (get_children yn) ;;
     assign z (with_children (slice_from ych t)) ;;
     yn <- deref y ;;
     ych <- lift (get_children yn) ;;
     assign y (with_children (slice_to ych t)) ;;
     zn <- deref z ;;
     zch <- lift (get_children zn) ;;
     reparent zch z_bid
   else ret tt) ;;
  assign parent (fun n => with_keys (list_insert (keys n) i mid_key) n) ;;
  assign parent (fun n => with_values (list_insert (values n) i mid_val) n) ;;
  p <- deref parent ;;
  pch <- lift (get_children p) ;;
  assign parent (with_children (list_insert pch (i + 1) z_bid)) ;;
  write_node y ;;
  write_node z ;;
  write_node parent.

(** The shifting loop of the leaf case (lines 310-313),
    [while i >= 0 and key < keys[i]], entered with [i = n - 1]; the result
    is the final [i]. *)
Fixpoint shift_loop (n : nat) (node : ref) (key : Z) : M Z :=
  match n with
  | O => ret (-1)
  | S m =>
      let i := Z.of_nat m in
      nd <- deref node ;;
      k <- lift (getitem (keys nd) i) ;;
      if key <? k then
        ks <- lift (setitem (keys nd) (i + 1) k) ;;
        assign node (with_keys ks) ;;
        nd <- deref node ;;
        v <- lift (getitem (values nd) i) ;;
        vs <- lift (setitem (values nd) (i + 1) v) ;;
        assign node (with_values vs) ;;
        shift_loop m node key
      else ret i
  end.

(** The scan of the internal case (lines 320-321), entered with
    [i = n - 1]. *)
Fixpoint scan_down (n : nat) (key : Z) (ks : list Z) : outcome Z :=
  match n with
  | O => Ok (-1)
  | S m =>
      (k <-- getitem ks (Z.of_nat m) ;;
       if key <? k then scan_down m key ks else Ok (Z.of_nat m))%pure
  end.

(** [insert_nonfull] (lines 303-329). *)
Fixpoint insert_nonfull (fuel : nat) (node : ref) (key value : Z) : M unit :=
  match fuel with
  | O => raise RecursionError
  | S fuel' =>
      nd <- deref node ;;
      if is_leaf nd then
        let i := len (keys nd) - 1 in
        assign node (fun n => with_keys (keys n ++ [0]) n) ;;
        assign node (fun n => with_values (values n ++ [0]) n) ;;
        i <- shift_loop (Z.to_nat (i + 1)) node key ;;
        nd <- deref node ;;
        ks <- lift (setitem (keys nd) (i + 1) key) ;;
        assign node (with_keys ks) ;;
        nd <- deref node ;;
        vs <- lift (setitem (values nd) (i + 1) value) ;;
        assign node (with_values vs) ;;
        write_node node
      else
        i <- lift (scan_down (Z.to_nat (len (keys nd))) key (keys nd)) ;;
        let i := i + 1 in
        ch <- lift (get_children nd) ;;
        c <- lift (getitem ch i) ;;
        child <- read_node c ;;
        cn <- deref child ;;
        child <-
          (if len (keys cn) =? MAX_KEYS then
             split_child node i ;;
             nd <- deref node ;;
             k <- lift (getitem (keys nd) i) ;;
             let i := if key >? k then i + 1 else i in
             ch <- lift (get_children nd) ;;
             c <- lift (getitem ch i) ;;
             read_node c
           else ret child) ;;
        insert_nonfull fuel' child key value
  end.

(** Line 250 reads [self.bfile.root-id = bid]: an assignment to the
    subtraction [self.bfile.root - id], which Python's compiler refuses
    before a single statement runs.  Both ways of taking the line are kept.
    [AsWritten] is the line as it stands: the suite that holds it (lines
    245-251) is never executed, so nothing is allocated or written, and
    the SyntaxError is all a caller gets.  [AsRootId] is the line with the
    hyphen read as an underscore, [self.bfile.root_id = bid], the reading
    under which the suite runs. *)
Inductive reading : Set := AsWritten | AsRootId.

(** Whether the suite of lines 245-251 can be run at all. *)
Definition suite_245 (rd : reading) : M unit :=
  match rd with
  | AsWritten => raise SyntaxError
  | AsRootId => ret tt
  end.

(** The line as an assignment to [root_id]. *)
Definition line_250 (bid : Z) : M unit := modify (set_root_id bid).

(** Line 251 calls [syn_header], a method [FileManager] does not have. *)
Definition syn_header : M unit := raise AttributeError.

(** [insert] (lines 243-267). *)
Definition insert (rd : reading) (fuel : nat) (key value : Z) : M unit :=
  r <- gets root_id ;;
  if r =? 0 then
    suite_245 rd ;;
    bid <- allocate_block ;;
    root <- new_node (BTreeNode_init bid 0 [] [] []) ;;
    assign root (with_keys [key]) ;;
    assign root (with_values [value]) ;;
    write_node root ;;
    line_250 bid ;;
    syn_header ;;
    ret tt
  else
    r <- gets root_id ;;
    root <- read_node r ;;
    rn <- deref root ;;
    if len (keys rn) =? MAX_KEYS then
      new_bid <- allocate_block ;;
      rn <- deref root ;;
      new_root <- new_node (BTreeNode_init new_bid 0 [] [] [block_id rn]) ;;
      assign root (with_parent_id new_bid) ;;
      write_node root ;;
      split_child new_root 0 ;;
      modify (set_root_id new_bid) ;;
      sync_header ;;
      insert_nonfull fuel new_root key value
    else
      insert_nonfull fuel root key value.

(** ** Callers and stores used in the statements *)

(** The store of a newly created index: [FileManager(path)] followed by
    [open(create=True)]. *)
Definition fresh : State := snd (open_ true (FileManager_init [])).

(** A caller issuing [insert] for each pair in turn, whatever each call
    returns or raises. *)
Fixpoint insert_each (rd : reading) (fuel : nat) (pairs : list (Z * Z))
  (s : State) : State :=
  match pairs with
  | [] => s
  | (k, v) :: ps => insert_each rd fuel ps (snd (insert rd fuel k v s))
  end.

(** A file holding only a well-formed header block that names root block 3
    and next block 7. *)
Definition header_3_7 : list byte :=
  match header_block 3 7 with
  | Ok buf => buf
  | Raise _ => []
  end.

(** [n] calls of [allocate_block] in a row, and the ids they return. *)
Fixpoint allocate_n (n : nat) : M (list Z) :=
  match n with
  | O => ret []
  | S n' =>
      bid <- allocate_block ;;
      rest <- allocate_n n' ;;
      ret (bid :: rest)
  end.

(** The [n] integers from [a] on. *)
Fixpoint consecutive (a : Z) (n : nat) : list Z :=
  match n with
  | O => []
  | S n' => a :: consecutive (a + 1) n'
  end.

(** A store whose next block id is the largest 64-bit value. *)
Definition last_id_store : State :=
  mkState (fd fresh) 0 (2 ^ 64 - 1) [] [].

(** The block ids the cache holds, oldest first. *)
Definition cached_ids (s : State) : list Z := map fst (cache s).

(** One access in a least-recently-used order of capacity [CACHE_SIZE]:
    the id becomes the most recent one, and over capacity the least recent
    one goes. *)
Definition lru_touch (k : Z) (order : list Z) : list Z :=
  let l := filter (fun x => negb (x =? k)) order ++ [k] in
  if len l >? CACHE_SIZE then tl l else l.

(** The cache order the specification describes, "LRU by access": every
    [read_node] and every [write_node] call is an access to its block. *)
Definition lru_by_access (accesses : list Z) : list Z :=
  fold_left (fun order k => lru_touch k order) accesses [].

(** The bytes [read_node] is handed for block [bid]. *)
Definition block_at (s : State) (bid : Z) : list byte :=
  firstn (Z.to_nat BLOCK_SIZE) (skipn (Z.to_nat (bid * BLOCK_SIZE)) (fd s)).

(** A leaf object holding one pair. *)
Definition one_pair_leaf (bid k v : Z) : BTreeNode :=
  with_values [v] (with_keys [k] (BTreeNode_init bid 0 [] [] [])).

(** A caller writing blocks 1, 2, 3, then block 1 again, then block 4. *)
Definition writes_1_2_3_1_4 : M unit :=
  n1 <- new_node (one_pair_leaf 1 10 100) ;;
  write_node n1 ;;
  n2 <- new_node (one_pair_leaf 2 20 200) ;;
  write_node n2 ;;
  n3 <- new_node (one_pair_leaf 3 30 300) ;;
  write_node n3 ;;
  write_node n1 ;;
  n4 <- new_node (one_pair_leaf 4 40 400) ;;
  write_node n4.

(** The store after [read_node] is called on [a], [b], [c], [d] in turn. *)
Definition read_four (a b c d : Z) (s : State) : State :=
  snd (read_node d (snd (read_node c (snd (read_node b
    (snd (read_node a s))))))).

(** A store with blocks 1 to 4 on disk and blocks 2, 3, 4 cached. *)
Definition four_blocks : State := snd (writes_1_2_3_1_4 fresh).

(** The file of [s] in the hands of a new [FileManager] that has called
    [open()] on it: whatever [open] returns or raises, the handle holds the
    file and an empty cache. *)
Definition reopened (s : State) : State :=
  snd (open_ false (FileManager_init (fd s))).

(** A full leaf: keys 1 to 19 with values 101 to 119. *)
Definition full_leaf (bid : Z) : BTreeNode :=
  with_values (consecutive 101 19)
    (with_keys (consecutive 1 19) (BTreeNode_init bid 0 [] [] [])).

(** A caller that writes a full leaf as block 1 and builds a parent for it
    the way [insert] builds a new root (line 258); when [with_attr] holds it
    also assigns the parent the [children] attribute that [split_child]
    reads.  The parent is returned. *)
Definition split_setup (with_attr : bool) : M ref :=
  b1 <- allocate_block ;;
  y <- new_node (full_leaf b1) ;;
  write_node y ;;
  b2 <- allocate_block ;;
  parent <- new_node (BTreeNode_init b2 0 [] [] [b1]) ;;
  (if with_attr : bool then assign parent (with_children [b1]) else ret tt) ;;
  ret parent.

(** [split_child(parent, 0)] after that, on a new index. *)
Definition split_run (with_attr : bool) : outcome unit * State :=
  (parent <- split_setup with_attr ;; split_child parent 0) fresh.

(** The pairs (1, 101), ..., (20, 120). *)
Definition pairs_1_20 : list (Z * Z) :=
  map (fun k => (k, k + 100)) (consecutive 1 20).

(** ** Predicates on computations *)

(** A relation between the store before and after a computation, whatever
    the computation returns or raises. *)
Definition preserves (R : State -> State -> Prop) {A} (m : M A) : Prop :=
  forall s, R s (snd (m s)).

(** The file, the root id and the next block id are the same in both
    stores, and every node object of the first is unchanged in the second,
    which may hold further objects. *)
Definition same_disk (s s' : State) : Prop :=
  fd s' = fd s /\ root_id s' = root_id s /\
  next_block_id s' = next_block_id s /\
  exists more, heap s' = heap s ++ more.

Definition never_found (m : M (option Z)) : Prop :=
  forall s v, fst (m s) <> Ok (Some v).

Definition always_raises {A} (m : M A) : Prop :=
  forall s, exists e, fst (m s) = Raise e.

(** ** Well-formedness of nodes and blocks *)

(** A value that fits an 8-byte unsigned field. *)
Definition in_u64 (v : Z) : Prop := 0 <= v < 2 ^ 64.

(** Everything [to_bytes] packs fits its field: the ids, the key count and
    the entries that land in the 19 + 19 + 20 slots. *)
Definition packable (n : BTreeNode) : Prop :=
  in_u64 (block_id n) /\ in_u64 (parent_id n) /\ in_u64 (len (keys n)) /\
  Forall in_u64 (firstn 19 (keys n)) /\
  Forall in_u64 (firstn 19 (values n)) /\
  Forall in_u64 (firstn 20 (num_children n)).

(** ** Relations between the store before and after an operation *)

(** The cache holds at most [CACHE_SIZE] entries. *)
Definition cache_bounded (s : State) : Prop := (length (cache s) <= 3)%nat.

Definition keeps_cache_bound (s s' : State) : Prop :=
  cache_bounded s -> cache_bounded s'.

(** The next block id has not decreased and the file has not shrunk. *)
Definition grows (s s' : State) : Prop :=
  next_block_id s <= next_block_id s' /\
  (length (fd s) <= length (fd s'))%nat.

Definition same_root (s s' : State) : Prop := root_id s' = root_id s.

(** A store whose root leaf is full: the first 19 pairs inserted into a new
    index, line 250 read as the assignment to [root_id]. *)
Definition full_root_store : State :=
  insert_each AsRootId 100 (firstn 19 pairs_1_20) fresh.

(** ** The sorted-position insert, as a function on lists *)

(** Where the scan of lines 310-313 stops when it starts below position
    [n]: right after the last of the first [n] keys that is not greater
    than [key]. *)
Fixpoint ins_pos (n : nat) (key : Z) (ks : list Z) : nat :=
  match n with
  | O => O
  | S m =>
      match nth_error ks m with
      | Some k => if key <? k then ins_pos m key ks else S m
      | None => S m
      end
  end.

(** [l] with [x] put in at position [p]. *)
Definition insert_at {A} (p : nat) (x : A) (l : list A) : list A :=
  firstn p l ++ x :: skipn p l.

(** The list while the loop shifts entries right: position [n] is the free
    slot, still holding a copy of the entry it had ([d] at the very end). *)
Definition shifted {A} (l : list A) (d : A) (n : nat) : list A :=
  firstn n l ++ nth n l d :: skipn n l.

(** A leaf with the pair put in at the position the scan finds. *)
Definition leaf_with (key value : Z) (nd : BTreeNode) : BTreeNode :=
  let p := ins_pos (length (keys nd)) key (keys nd) in
  with_values (insert_at p value (values nd))
    (with_keys (insert_at p key (keys nd)) nd).

(** A store whose root is a cached leaf holding the pair (5, 50): one
    insert into a new index, line 250 read as the assignment. *)
Definition one_leaf_store : State :=
  insert_each AsRootId 100 [(5, 50)] fresh.

(** The same store after a caller has written three more blocks through
    [write_node]: the root leaf has left the cache. *)
Definition root_evicted_store : State :=
  snd ((n2 <- new_node (one_pair_leaf 2 20 200) ;;
        write_node n2 ;;
        n3 <- new_node (one_pair_leaf 3 30 300) ;;
        write_node n3 ;;
        n4 <- new_node (one_pair_leaf 4 40 400) ;;
        write_node n4) one_leaf_store).

(** * Reasoning about computations *)

Section Preserves.
Variable R : State -> State -> Prop.
Hypothesis R_refl : forall s, R s s.
Hypothesis R_trans : forall s1 s2 s3, R s1 s2 -> R s2 s3 -> R s1 s3.

Lemma pres_ret {A} (a : A) : preserves R (ret a).
Proof. intro s. apply R_refl. Qed.

Lemma pres_raise {A} (e : exn) : preserves R (@raise A e).
Proof. intro s. apply R_refl. Qed.

Lemma pres_lift {A} (o : outcome A) : preserves R (lift o).
Proof. intro s. apply R_refl. Qed.

Lemma pres_gets {A} (f : State -> A) : preserves R (gets f).
Proof. intro s. apply R_refl. Qed.

Lemma pres_modify (f : State -> State) :
  (forall s, R s (f s)) -> preserves R (modify f).
Proof. intros H s. apply H. Qed.

Lemma pres_bind {A B} (m : M A) (k : A -> M B) :
  preserves R m -> (forall a, preserves R (k a)) -> preserves R (bind m k).
Proof.
  intros Hm Hk s. unfold bind.
  specialize (Hm s). destruct (m s) as [[a | e] s1]; simpl in *.
  - eapply R_trans; [exact Hm | apply Hk].
  - exact Hm.
Qed.
End Preserves.

Ltac pres_steps :=
  repeat first
    [ apply pres_ret; solve [auto]
    | apply pres_raise; solve [auto]
    | apply pres_lift; solve [auto]
    | apply pres_gets; solve [auto]
    | apply pres_bind; [ solve [eauto] | | intro ]
    | match goal with
      | |- preserves _ (if ?b then _ else _) => destruct b
      | |- preserves _ (match ?x with _ => _ end) => destruct x
      end ].

(** ** What a read-only operation leaves alone *)

Lemma same_disk_refl s : same_disk s s.
Proof.
  repeat split. exists []. symmetry. apply app_nil_r.
Qed.

Lemma same_disk_trans s1 s2 s3 :
  same_disk s1 s2 -> same_disk s2 s3 -> same_disk s1 s3.
Proof.
  unfold same_disk. intros (A1 & B1 & C1 & [m1 D1]) (A2 & B2 & C2 & [m2 D2]).
  repeat split; try congruence.
  exists (m1 ++ m2). rewrite D2, D1, app_assoc. reflexivity.
Qed.

#[local] Hint Resolve same_disk_refl same_disk_trans : core.

Lemma same_disk_cache_update (f : State -> list (Z * ref)) :
  preserves same_disk (modify (fun s => set_cache (f s) s)).
Proof. apply pres_modify. intro s. apply (same_disk_refl s). Qed.

Lemma same_disk_new_node n : preserves same_disk (new_node n).
Proof. intro s. repeat split. exists [n]. reflexivity. Qed.

Lemma same_disk_deref r : preserves same_disk (deref r).
Proof. intro s. unfold deref. destruct (nth_error (heap s) r); apply same_disk_refl. Qed.

Lemma same_disk_fd_read_at pos n : preserves same_disk (fd_read_at pos n).
Proof. unfold fd_read_at. pres_steps. Qed.

#[local] Hint Resolve same_disk_cache_update same_disk_new_node
  same_disk_deref same_disk_fd_read_at : core.

Lemma same_disk_read_node bid : preserves same_disk (read_node bid).
Proof. unfold read_node. pres_steps; auto. Qed.

#[local] Hint Resolve same_disk_read_node : core.

Lemma same_disk_search fuel : forall bid key,
  preserves same_disk (search fuel bid key).
Proof.
  induction fuel as [| fuel IH]; intros bid key; simpl.
  - pres_steps.
  - pres_steps; auto.
Qed.

Lemma same_disk_traverse fuel : forall bid pairs,
  preserves same_disk (traverse fuel bid pairs).
Proof.
  induction fuel as [| fuel IH]; intros bid pairs; simpl.
  - pres_steps.
  - destruct (bid =? 0); [pres_steps |].
    apply pres_bind; eauto. intro node.
    apply pres_bind; eauto. intro nd.
    apply pres_bind; eauto.
    + generalize 0 at 1. generalize pairs.
      induction (keys nd) as [| k ks IHks]; intros ps i.
      * pres_steps.
      * pres_steps; auto.
    + intro ps. pres_steps; auto.
Qed.

Lemma same_disk_collect fuel : preserves same_disk (collect fuel).
Proof.
  unfold collect. apply pres_bind; eauto.
  - apply pres_gets; auto.
  - intro r. apply same_disk_traverse.
Qed.

(** C10: search and collect are read-only.  From any store, with any
    recursion budget, block id and key, and whether they return or raise,
    [search] and [collect] leave the bytes of the backing file (so every
    block of it), [root_id] and [next_block_id] as they were, and assign to
    no existing node object; only the cache, and with it the objects newly
    decoded into it, may differ. *)
Theorem search_collect_read_only :
  forall (fuel : nat) (s : State) (bid key : Z),
    same_disk s (snd (search fuel bid key s)) /\
    same_disk s (snd (collect fuel s)).
Proof.
  intros fuel s bid key. split.
  - apply same_disk_search.
  - apply same_disk_collect.
Qed.

(** ** The equality test of [search] *)

Lemma len_app {A} (l1 l2 : list A) : len (l1 ++ l2) = len l1 + len l2.
Proof. unfold len. rewrite length_app. lia. Qed.

Lemma len_nonneg {A} (l : list A) : 0 <= len l.
Proof. unfold len. lia. Qed.

Lemma getitem_app_mid {A} (pre : list A) (x : A) (post : list A) :
  getitem (pre ++ x :: post) (len pre) = Ok x.
Proof.
  unfold getitem.
  pose proof (len_nonneg pre) as Hp.
  destruct (len pre <? 0) eqn:E; [apply Z.ltb_lt in E; lia |].
  rewrite E. unfold len. rewrite Nat2Z.id.
  rewrite nth_error_app2 by lia.
  replace (length pre - length pre)%nat with 0%nat by lia. reflexivity.
Qed.

(** Where the scan stops, the key is not greater than the key found there:
    the test of line 221 repeats the loop condition and is false. *)
Lemma found_at_scan_up (key : Z) : forall (ks pre : list Z),
  found_at key (pre ++ ks) (scan_up key ks (len pre)) = Ok false.
Proof.
  induction ks as [| k ks IH]; intro pre; simpl.
  - unfold found_at. rewrite app_nil_r, Z.ltb_irrefl. reflexivity.
  - destruct (key >? k) eqn:E.
    + replace (pre ++ k :: ks) with ((pre ++ [k]) ++ ks)
        by (rewrite <- app_assoc; reflexivity).
      replace (len pre + 1) with (len (pre ++ [k]))
        by (rewrite len_app; reflexivity).
      apply IH.
    + unfold found_at. rewrite len_app.
      assert (H : (len pre <? len pre + len (k :: ks)) = true).
      { apply Z.ltb_lt. unfold len at 3. simpl length. lia. }
      rewrite H, getitem_app_mid. simpl. rewrite E. reflexivity.
Qed.

Lemma found_at_scan_up_0 (key : Z) (ks : list Z) :
  found_at key ks (scan_up key ks 0) = Ok false.
Proof. exact (found_at_scan_up key ks []). Qed.

Lemma never_found_bind {A} (m : M A) (k : A -> M (option Z)) :
  (forall a, never_found (k a)) -> never_found (bind m k).
Proof.
  intros Hk s v. unfold bind.
  destruct (m s) as [[a | e] s1]; simpl.
  - apply Hk.
  - discriminate.
Qed.

Lemma never_found_search fuel : forall bid key,
  never_found (search fuel bid key).
Proof.
  induction fuel as [| fuel IH]; intros bid key; simpl.
  - intros s v. discriminate.
  - destruct (bid =? 0); [intros s v; discriminate |].
    apply never_found_bind. intro node.
    apply never_found_bind. intro nd.
    rewrite found_at_scan_up_0.
    intros s v. unfold bind, lift. cbv beta iota.
    destruct (is_leaf nd); [discriminate |].
    destruct (getitem (num_children nd) (scan_up key (keys nd) 0)); simpl.
    + apply IH.
    + discriminate.
Qed.

(** C1 (fails on the code): the specification asks [search] to return the
    inserted value of every inserted key.  The code never does: from every store and for every key,
    [search] returns not-found or raises, because the test of line 221 is
    the loop condition again ([key > keys[i]]) instead of an equality test.
    In particular, after [insert(5, 50)] into a new index, [search(5)] is
    not-found under either reading of line 250. *)
Theorem search_never_finds :
  (forall (fuel : nat) (bid key : Z) (s : State) (v : Z),
      fst (search fuel bid key s) <> Ok (Some v)) /\
  (forall rd : reading,
      let s := insert_each rd 100 [(5, 50)] fresh in
      fst (search 100 (root_id s) 5 s) = Ok None).
Proof.
  split.
  - intros fuel bid key s v. apply never_found_search.
  - intros []; vm_compute; reflexivity.
Qed.

(** ** Opening an existing file *)

Lemma seek_ok_0 : seek_ok 0 = true.
Proof. reflexivity. Qed.

(** Whatever the file holds, [open(create=False)] raises and leaves the
    store as it found it: ValueError on a wrong signature, TypeError from
    line 59 on a right one. *)
Lemma open_existing_raises (s : State) :
  open_ false s =
  (Raise (if bytes_eqb (firstn 8 (fd s)) MAGIC then TypeError else ValueError),
   s).
Proof.
  unfold open_, fd_read_at, bind, gets. rewrite seek_ok_0.
  unfold slice_to. rewrite firstn_firstn.
  change (skipn (Z.to_nat 0) (fd s)) with (fd s).
  change (Nat.min (Z.to_nat 8) (Z.to_nat BLOCK_SIZE)) with 8%nat.
  destruct (bytes_eqb (firstn 8 (fd s)) MAGIC); reflexivity.
Qed.

(** C6 (fails on the code): the specification asks that opening an existing
    file with the right signature succeeds and loads the stored ids.  On every file the open
    raises and the store is untouched: a wrong signature gives ValueError
    (the format error, nothing written), a right one gives TypeError at line
    59, [struct.unpack] being called with three arguments.  On a header
    block naming root 3 and next 7 the handle keeps the constructor's
    [root_id = 0] and [next_block_id = 1]. *)
Theorem open_existing_fails :
  (forall file : list byte,
      open_ false (FileManager_init file) =
      (Raise (if bytes_eqb (firstn 8 file) MAGIC
              then TypeError else ValueError),
       FileManager_init file)) /\
  bytes_eqb (firstn 8 header_3_7) MAGIC = true /\
  unpack_from 2 header_3_7 8 = Ok [3; 7] /\
  (let '(r, s) := open_ false (FileManager_init header_3_7) in
   r = Raise TypeError /\ root_id s = 0 /\ next_block_id s = 1 /\
   fd s = header_3_7).
Proof.
  split; [| split; [| split]].
  - intro file. apply open_existing_raises.
  - vm_compute. reflexivity.
  - vm_compute. reflexivity.
  - vm_compute. repeat split.
Qed.

(** ** Packing and unpacking 8-byte integers *)

Lemma Ok_inj {A} (a b : A) : Ok a = Ok b -> a = b.
Proof. intro H. congruence. Qed.

Lemma pack_Q_ok (v : Z) :
  0 <= v < 2 ^ 64 -> pack_Q v = Ok (rev (le_split 8 v)).
Proof.
  intros [H0 H1]. unfold pack_Q.
  destruct (0 <=? v) eqn:E0; [| apply Z.leb_gt in E0; lia].
  destruct (v <? 2 ^ 64) eqn:E1; [| apply Z.ltb_ge in E1; lia].
  reflexivity.
Qed.

Lemma pack_Q_inv (v : Z) (bs : list byte) :
  pack_Q v = Ok bs -> 0 <= v < 2 ^ 64 /\ bs = rev (le_split 8 v).
Proof.
  unfold pack_Q.
  destruct (0 <=? v) eqn:E0; [| discriminate].
  destruct (v <? 2 ^ 64) eqn:E1; [| discriminate].
  cbn [andb]. intro H. apply Ok_inj in H.
  apply Z.leb_le in E0. apply Z.ltb_lt in E1. auto.
Qed.

Lemma length_pack (v : Z) : length (rev (le_split 8 v)) = 8%nat.
Proof. rewrite length_rev. apply length_le_split. Qed.

Lemma unpack_Q_pack (v : Z) :
  0 <= v < 2 ^ 64 -> unpack_Q (rev (le_split 8 v)) = v.
Proof.
  intro H. unfold unpack_Q. rewrite rev_involutive, le_combine_split.
  change (Z.of_nat 8 * 8) with 64. apply Z.mod_small. exact H.
Qed.

Lemma unpack_Qs_cons (n : nat) (v : Z) (rest : list byte) :
  0 <= v < 2 ^ 64 ->
  unpack_Qs (S n) (rev (le_split 8 v) ++ rest) = v :: unpack_Qs n rest.
Proof.
  intro H. cbn [unpack_Qs].
  rewrite firstn_app, skipn_app, length_pack.
  rewrite firstn_all2 by (rewrite length_pack; lia).
  rewrite skipn_all2 by (rewrite length_pack; lia).
  change (8 - 8)%nat with 0%nat. cbn [firstn skipn app].
  rewrite app_nil_r, unpack_Q_pack by exact H. reflexivity.
Qed.

(** ** The header block *)

Lemma header_block_ok (r n : Z) :
  0 <= r < 2 ^ 64 -> 0 <= n < 2 ^ 64 ->
  header_block r n =
  Ok (MAGIC ++ rev (le_split 8 r) ++ rev (le_split 8 n) ++ zeros 488).
Proof.
  intros Hr Hn. unfold header_block.
  rewrite (pack_Q_ok r Hr), (pack_Q_ok n Hn). reflexivity.
Qed.

Lemma header_block_length (r n : Z) (buf : list byte) :
  header_block r n = Ok buf -> length buf = 512%nat.
Proof.
  unfold header_block, bindO.
  destruct (pack_Q r) as [b1 |] eqn:E1; [| discriminate].
  destruct (pack_Q n) as [b2 |] eqn:E2; [| discriminate].
  apply pack_Q_inv in E1. apply pack_Q_inv in E2.
  destruct E1 as [_ ->]. destruct E2 as [_ ->].
  intro H. apply Ok_inj in H. subst buf.
  rewrite !length_app, !length_pack. reflexivity.
Qed.

Lemma write_at_0 (buf old : list byte) :
  write_at 0 buf old = buf ++ skipn (length buf) old.
Proof.
  unfold write_at, zeros. simpl firstn.
  replace (Z.to_nat (0 - len old)) with 0%nat
    by (pose proof (len_nonneg old); lia).
  simpl. unfold len. rewrite Nat2Z.id. reflexivity.
Qed.

Lemma sync_header_ok (s : State) (buf : list byte) :
  header_block (root_id s) (next_block_id s) = Ok buf ->
  sync_header s = (Ok tt, set_fd (buf ++ skipn 512 (fd s)) s).
Proof.
  intro H. unfold sync_header, bind, gets, lift. rewrite H.
  unfold fd_write_at. rewrite seek_ok_0. unfold modify.
  rewrite write_at_0, (header_block_length _ _ _ H). reflexivity.
Qed.

Lemma sync_header_raises (s : State) (e : exn) :
  header_block (root_id s) (next_block_id s) = Raise e ->
  sync_header s = (Raise e, s).
Proof.
  intro H. unfold sync_header, bind, gets, lift. rewrite H. reflexivity.
Qed.

(** The header block answers its own fields back. *)
Lemma header_block_decodes (r n : Z) (buf rest : list byte) :
  header_block r n = Ok buf ->
  firstn 8 (buf ++ rest) = MAGIC /\ unpack_from 2 (buf ++ rest) 8 = Ok [r; n].
Proof.
  intro H. pose proof (header_block_length _ _ _ H) as Hl.
  unfold header_block, bindO in H.
  destruct (pack_Q r) as [b1 |] eqn:E1; [| discriminate].
  destruct (pack_Q n) as [b2 |] eqn:E2; [| discriminate].
  apply pack_Q_inv in E1. apply pack_Q_inv in E2.
  destruct E1 as [Hr ->]. destruct E2 as [Hn ->].
  apply Ok_inj in H. rename H into Hb. split.
  - rewrite <- Hb. reflexivity.
  - unfold unpack_from.
    assert (L : len (buf ++ rest) = 512 + len rest).
    { rewrite len_app. unfold len. rewrite Hl. reflexivity. }
    rewrite L.
    destruct (512 + len rest - 8 <? 8 * Z.of_nat 2) eqn:E.
    { apply Z.ltb_lt in E. pose proof (len_nonneg rest). lia. }
    rewrite <- Hb. rewrite <- !app_assoc.
    change (skipn (Z.to_nat 8) (MAGIC ++ ?x)) with x.
    rewrite unpack_Qs_cons by exact Hr.
    rewrite unpack_Qs_cons by exact Hn. reflexivity.
Qed.

(** ** Block allocation *)

Lemma allocate_block_ok (s : State) (buf : list byte) :
  header_block (root_id s) (next_block_id s + 1) = Ok buf ->
  allocate_block s =
  (Ok (next_block_id s),
   mkState (buf ++ skipn 512 (fd s)) (root_id s) (next_block_id s + 1)
           (cache s) (heap s)).
Proof.
  intro H. unfold allocate_block, bind, gets, modify.
  rewrite (sync_header_ok (set_next_block_id (next_block_id s + 1) s) buf H).
  reflexivity.
Qed.

Lemma consecutive_lower (n : nat) : forall a x,
  In x (consecutive a n) -> a <= x.
Proof.
  induction n as [| n IH]; intros a x; simpl.
  - intros [].
  - intros [<- | H]; [lia |]. apply IH in H. lia.
Qed.

Lemma consecutive_sorted (n : nat) : forall a,
  StronglySorted Z.lt (consecutive a n).
Proof.
  induction n as [| n IH]; intro a; simpl; constructor.
  - apply IH.
  - apply Forall_forall. intros x H. apply consecutive_lower in H. lia.
Qed.

Lemma consecutive_NoDup (n : nat) : forall a, NoDup (consecutive a n).
Proof.
  induction n as [| n IH]; intro a; simpl; constructor.
  - intro H. apply consecutive_lower in H. lia.
  - apply IH.
Qed.

Lemma allocate_n_ok (n : nat) : forall s,
  0 <= root_id s < 2 ^ 64 ->
  0 <= next_block_id s ->
  next_block_id s + Z.of_nat n < 2 ^ 64 ->
  fst (allocate_n n s) = Ok (consecutive (next_block_id s) n).
Proof.
  induction n as [| n IH]; intros s Hr H0 Hn; [reflexivity |].
  cbn [allocate_n consecutive]. unfold bind at 1.
  assert (Hb : 0 <= next_block_id s + 1 < 2 ^ 64) by lia.
  rewrite (allocate_block_ok s _ (header_block_ok _ _ Hr Hb)).
  unfold bind at 1.
  match goal with |- context [allocate_n n ?s1] =>
    specialize (IH s1); cbn [root_id next_block_id] in IH;
    specialize (IH Hr ltac:(lia) ltac:(lia));
    destruct (allocate_n n s1) as [[ids | e] s2]
  end; cbn [fst] in IH; [| discriminate].
  apply Ok_inj in IH. subst ids. reflexivity.
Qed.

(** C8, as stated, fails: at [next_block_id = 2^64 - 1] the incremented id
    no longer fits the 8-byte header field, [sync_header] raises
    [struct.error] and [allocate_block] returns no id and persists
    nothing. *)
Lemma allocate_block_at_last_id :
  ~ (forall s : State,
        0 <= root_id s < 2 ^ 64 -> 0 <= next_block_id s < 2 ^ 64 ->
        fst (allocate_block s) = Ok (next_block_id s)).
Proof.
  intro H. specialize (H last_id_store).
  cbn [last_id_store root_id next_block_id] in H.
  specialize (H ltac:(lia) ltac:(lia)).
  assert (E : fst (allocate_block last_id_store) = Raise StructError)
    by (vm_compute; reflexivity).
  rewrite E in H. discriminate.
Qed.

(** C8, amended: from every store whose root id fits 64 bits and whose next
    block id is below [2^64 - 1], [allocate_block] returns the current
    [next_block_id], leaves it incremented by one, and has by then written
    block 0 of the file: the signature, the root id and the new next block
    id, the rest of the file as before.  Successive calls, as long as the
    ids fit, return consecutive ids: strictly increasing, none twice. *)
Theorem allocate_block_spec :
  forall s : State,
    0 <= root_id s < 2 ^ 64 ->
    0 <= next_block_id s ->
    next_block_id s + 1 < 2 ^ 64 ->
    let s' := snd (allocate_block s) in
    fst (allocate_block s) = Ok (next_block_id s) /\
    next_block_id s' = next_block_id s + 1 /\
    root_id s' = root_id s /\ cache s' = cache s /\ heap s' = heap s /\
    firstn 8 (fd s') = MAGIC /\
    unpack_from 2 (fd s') 8 = Ok [root_id s; next_block_id s + 1] /\
    skipn 512 (fd s') = skipn 512 (fd s) /\
    forall n : nat,
      next_block_id s + Z.of_nat n < 2 ^ 64 ->
      fst (allocate_n n s) = Ok (consecutive (next_block_id s) n) /\
      StronglySorted Z.lt (consecutive (next_block_id s) n) /\
      NoDup (consecutive (next_block_id s) n).
Proof.
  intros s Hr H0 H1.
  assert (Hb := header_block_ok (root_id s) (next_block_id s + 1)
                  Hr ltac:(lia)).
  rewrite (allocate_block_ok s _ Hb). cbn [fst snd].
  cbn [next_block_id root_id cache heap fd].
  destruct (header_block_decodes _ _ _ (skipn 512 (fd s)) Hb) as [Hm Hd].
  do 5 (split; [reflexivity |]).
  split; [exact Hm |]. split; [exact Hd |]. split.
  - rewrite skipn_app.
    rewrite (header_block_length _ _ _ Hb).
    rewrite skipn_all2 by (rewrite (header_block_length _ _ _ Hb); lia).
    reflexivity.
  - intros n Hn. split; [| split].
    + apply allocate_n_ok; assumption.
    + apply consecutive_sorted.
    + apply consecutive_NoDup.
Qed.

Lemma allocate_block_spec_witness :
  (0 <= root_id fresh < 2 ^ 64 /\ 0 <= next_block_id fresh /\
   next_block_id fresh + 1 < 2 ^ 64) /\
  fst (allocate_block fresh) = Ok 1 /\
  unpack_from 2 (fd (snd (allocate_block fresh))) 8 = Ok [0; 2] /\
  fst (allocate_n 3 fresh) = Ok [1; 2; 3].
Proof.
  assert (Hr : 0 <= root_id fresh < 2 ^ 64) by (vm_compute; split; congruence).
  assert (H0 : 0 <= next_block_id fresh) by (vm_compute; congruence).
  assert (H1 : next_block_id fresh + 1 < 2 ^ 64) by (vm_compute; reflexivity).
  split; [split; [exact Hr | split; [exact H0 | exact H1]] |].
  destruct (allocate_block_spec fresh Hr H0 H1)
    as (A & _ & _ & _ & _ & _ & B & _ & C).
  split; [exact A | split; [exact B |]].
  destruct (C 3%nat ltac:(vm_compute; reflexivity)) as (D & _).
  exact D.
Defined.

(** ** Decoding a block *)

(** Two or more copies of [>Q] make a format [struct] cannot read. *)
Lemma fields_mark_repeated (n : nat) :
  fields (str_mul ">Q"%string (S (S n))) = None.
Proof. reflexivity. Qed.

Lemma unpack_from_raises (n : nat) (data : list byte) (offset : Z) (e : exn) :
  unpack_from n data offset = Raise e -> e = StructError.
Proof.
  unfold unpack_from.
  destruct (len data - offset <? 8 * Z.of_nat n); congruence.
Qed.

(** [from_bytes] never gets past line 131: a buffer too short for the
    header fails at line 129, any other at the first repeated format. *)
Lemma from_bytes_raises (data : list byte) :
  from_bytes data = Raise StructError.
Proof.
  unfold from_bytes. unfold struct_unpack_from at 1.
  change (fields HEADER_FMT) with (Some 3%nat). cbv iota.
  destruct (unpack_from 3 data 0) as [hdr | e] eqn:E; cbn [bindO].
  - unfold struct_unpack_from at 1.
    change (Z.to_nat MAX_KEYS) with 19%nat.
    rewrite (fields_mark_repeated 17). reflexivity.
  - rewrite (unpack_from_raises _ _ _ _ E). reflexivity.
Qed.

(** ** The cache *)

Lemma cache_set_absent (k : Z) (r : ref) : forall c,
  cache_get k c = None -> cache_set k r c = c ++ [(k, r)].
Proof.
  induction c as [| [k' r'] c IH]; simpl; [reflexivity |].
  destruct (k' =? k); [discriminate |].
  intro H. rewrite IH by exact H. reflexivity.
Qed.

Lemma cache_set_present_ids (k : Z) (r : ref) : forall c r',
  cache_get k c = Some r' -> map fst (cache_set k r c) = map fst c.
Proof.
  induction c as [| [k1 r1] c IH]; simpl; [discriminate |].
  intros r' H. destruct (k1 =? k) eqn:E; simpl.
  - apply Z.eqb_eq in E. subst k1. reflexivity.
  - rewrite (IH r') by exact H. reflexivity.
Qed.

Lemma length_cache_set (k : Z) (r : ref) : forall c,
  (length (cache_set k r c) <= S (length c))%nat.
Proof.
  induction c as [| [k' r'] c IH]; simpl; [lia |].
  destruct (k' =? k); simpl; lia.
Qed.

Lemma cache_get_pop (k : Z) : forall c, cache_get k (cache_pop k c) = None.
Proof.
  induction c as [| [k' r'] c IH]; simpl; [reflexivity |].
  destruct (k' =? k) eqn:E; simpl; [exact IH |].
  rewrite E. exact IH.
Qed.

Lemma length_cache_pop (k : Z) : forall c,
  (length (cache_pop k c) <= length c)%nat.
Proof. intro c. apply filter_length_le. Qed.

Lemma length_cache_pop_present (k : Z) : forall c r,
  cache_get k c = Some r -> (length (cache_pop k c) < length c)%nat.
Proof.
  induction c as [| [k' r'] c IH]; simpl; [discriminate |].
  intros r H. destruct (k' =? k); simpl.
  - pose proof (length_cache_pop k c). lia.
  - apply IH in H. lia.
Qed.

Lemma length_evict (c : list (Z * ref)) :
  (length c <= 4)%nat -> (length (evict c) <= 3)%nat.
Proof.
  intro H. unfold evict, CACHE_SIZE, len.
  destruct (Z.of_nat (length c) >? 3) eqn:E.
  - destruct c; simpl in *; lia.
  - rewrite Z.gtb_ltb in E. apply Z.ltb_ge in E. lia.
Qed.

Lemma evict_within (c : list (Z * ref)) :
  (length c <= 3)%nat -> evict c = c.
Proof.
  intro H. unfold evict, CACHE_SIZE, len.
  destruct (Z.of_nat (length c) >? 3) eqn:E; [| reflexivity].
  rewrite Z.gtb_ltb in E. apply Z.ltb_lt in E. lia.
Qed.

(** *** What [read_node] does, case by case *)

Lemma read_node_hit (s : State) (bid : Z) (r : ref) :
  cache_get bid (cache s) = Some r ->
  read_node bid s =
  (Ok r, set_cache (cache_pop bid (cache s) ++ [(bid, r)]) s).
Proof.
  intro H. unfold read_node, bind, gets. rewrite H.
  unfold modify, ret. cbn [set_cache cache].
  rewrite cache_set_absent by apply cache_get_pop. reflexivity.
Qed.

Lemma read_node_miss (s : State) (bid : Z) :
  cache_get bid (cache s) = None ->
  read_node bid s =
  (Raise (if seek_ok (bid * BLOCK_SIZE) then StructError else SeekError), s).
Proof.
  intro Hc. unfold read_node, bind, gets. rewrite Hc.
  unfold fd_read_at. destruct (seek_ok (bid * BLOCK_SIZE)); [| reflexivity].
  unfold gets, lift. rewrite from_bytes_raises. reflexivity.
Qed.

Lemma read_node_raises (s : State) (bid : Z) (e : exn) :
  fst (read_node bid s) = Raise e -> snd (read_node bid s) = s.
Proof.
  unfold read_node, bind, gets.
  destruct (cache_get bid (cache s)) as [r |]; [discriminate |].
  unfold fd_read_at. destruct (seek_ok (bid * BLOCK_SIZE)); [| reflexivity].
  unfold gets, lift.
  destruct (from_bytes _); [discriminate | reflexivity].
Qed.

Lemma read_node_bound (s : State) (bid : Z) :
  (length (cache s) <= 3)%nat ->
  (length (cache (snd (read_node bid s))) <= 3)%nat.
Proof.
  intro H. destruct (cache_get bid (cache s)) as [r |] eqn:Hc.
  - rewrite (read_node_hit s bid r Hc). cbn [snd set_cache cache].
    rewrite length_app. simpl length.
    pose proof (length_cache_pop_present bid _ _ Hc). lia.
  - destruct (fst (read_node bid s)) as [r | e] eqn:E.
    + unfold read_node, bind, gets in *. rewrite Hc in *.
      unfold fd_read_at in *.
      destruct (seek_ok (bid * BLOCK_SIZE)); [| discriminate].
      unfold gets, lift in *.
      destruct (from_bytes _); [| discriminate].
      cbn [snd new_node modify set_cache set_heap cache heap ret].
      apply length_evict. rewrite cache_set_absent by exact Hc.
      rewrite length_app. simpl length. lia.
    + rewrite (read_node_raises s bid e E). exact H.
Qed.

(** *** What [write_node] does, case by case *)

Lemma write_node_ok (s : State) (node : ref) (nd : BTreeNode)
  (data : list byte) :
  nth_error (heap s) node = Some nd ->
  to_bytes nd = Ok data ->
  seek_ok (block_id nd * BLOCK_SIZE) = true ->
  write_node node s =
  (Ok tt,
   mkState (write_at (block_id nd * BLOCK_SIZE) data (fd s))
           (root_id s) (next_block_id s)
           (evict (cache_set (block_id nd) node (cache s))) (heap s)).
Proof.
  intros Hn Hd Hs. unfold write_node, bind, deref. rewrite Hn.
  unfold lift. rewrite Hd. unfold fd_write_at. rewrite Hs. reflexivity.
Qed.

Lemma write_node_raises (s : State) (node : ref) (e : exn) :
  fst (write_node node s) = Raise e -> snd (write_node node s) = s.
Proof.
  unfold write_node, bind, deref.
  destruct (nth_error (heap s) node) as [nd |]; [| reflexivity].
  unfold lift. destruct (to_bytes nd) as [data |]; [| reflexivity].
  unfold fd_write_at.
  destruct (seek_ok (block_id nd * BLOCK_SIZE)); [discriminate | reflexivity].
Qed.

Lemma write_node_returns (s : State) (node : ref) (u : unit) :
  fst (write_node node s) = Ok u ->
  exists nd data,
    nth_error (heap s) node = Some nd /\ to_bytes nd = Ok data /\
    seek_ok (block_id nd * BLOCK_SIZE) = true.
Proof.
  unfold write_node, bind, deref.
  destruct (nth_error (heap s) node) as [nd |] eqn:Hn; [| discriminate].
  unfold lift. destruct (to_bytes nd) as [data |] eqn:Hd; [| discriminate].
  unfold fd_write_at.
  destruct (seek_ok (block_id nd * BLOCK_SIZE)) eqn:Hs; [| discriminate].
  intros _. exists nd, data. auto.
Qed.

Lemma write_node_bound (s : State) (node : ref) :
  (length (cache s) <= 3)%nat ->
  (length (cache (snd (write_node node s))) <= 3)%nat.
Proof.
  intro H. destruct (fst (write_node node s)) as [u | e] eqn:E.
  - destruct (write_node_returns s node u E) as (nd & data & A & B & C).
    rewrite (write_node_ok s node nd data A B C). cbn [snd cache].
    apply length_evict.
    pose proof (length_cache_set (block_id nd) node (cache s)). lia.
  - rewrite (write_node_raises s node e E). exact H.
Qed.

(** *** The bound, whatever the cache held *)

Lemma length_evict_max (c : list (Z * ref)) :
  (length (evict c) <= Nat.max 3 (length c - 1))%nat.
Proof.
  unfold evict, len, CACHE_SIZE.
  destruct (Z.of_nat (length c) >? 3) eqn:G.
  - destruct c as [| e c]; [discriminate G |].
    cbn [tl length]. lia.
  - rewrite Z.gtb_ltb in G. apply Z.ltb_ge in G. lia.
Qed.

Lemma read_node_bound_max (s : State) (bid : Z) :
  len (cache (snd (read_node bid s))) <= Z.max (len (cache s)) CACHE_SIZE.
Proof.
  unfold len, CACHE_SIZE.
  destruct (cache_get bid (cache s)) as [r |] eqn:Hc.
  - rewrite (read_node_hit s bid r Hc). cbn [snd set_cache cache].
    rewrite length_app. simpl length.
    pose proof (length_cache_pop_present bid _ _ Hc). lia.
  - rewrite (read_node_miss s bid Hc). cbn [snd]. lia.
Qed.

Lemma write_node_bound_max (s : State) (node : ref) :
  len (cache (snd (write_node node s))) <= Z.max (len (cache s)) CACHE_SIZE.
Proof.
  unfold len, CACHE_SIZE.
  destruct (fst (write_node node s)) as [u | e] eqn:E.
  - destruct (write_node_returns s node u E) as (nd & data & A & B & C).
    rewrite (write_node_ok s node nd data A B C). cbn [snd cache].
    pose proof (length_evict_max (cache_set (block_id nd) node (cache s))).
    pose proof (length_cache_set (block_id nd) node (cache s)). lia.
  - rewrite (write_node_raises s node e E). lia.
Qed.

(** C9 (fails on the code): the claim has a block that left the cache
    decoded from disk again by a later [read_node].  No [read_node] ever
    decodes a block: [from_bytes] asks [struct] for ['>Q' * 19], a format
    it cannot read, so every call on a block that is not cached raises
    ([struct.error] once the seek is accepted) and leaves the cache and
    everything else as it was; [read_node] returns only on a hit, with the
    cached object moved to the most recent end.  After blocks 1, 2, 3, 1, 4
    are written, block 1 has left the cache and cannot be read back,
    although its bytes are on disk; and reading blocks 1, 2, 3, 4 of that
    file through a new handle raises each time and caches nothing.  That
    block 1 is the one evicted is a second departure: it was accessed after
    blocks 2 and 3, but [write_node] of a cached block keeps the block's
    place in the order.  The bound holds: neither call leaves more entries
    than the larger of 3 and what the cache held before. *)
Theorem read_node_never_decodes :
  (forall (s : State) (bid : Z),
      match cache_get bid (cache s) with
      | Some r =>
          read_node bid s =
          (Ok r, set_cache (cache_pop bid (cache s) ++ [(bid, r)]) s)
      | None =>
          read_node bid s =
          (Raise (if seek_ok (bid * BLOCK_SIZE)
                  then StructError else SeekError), s)
      end) /\
  (forall (s : State) (bid : Z),
      len (cache (snd (read_node bid s)))
      <= Z.max (len (cache s)) CACHE_SIZE) /\
  (forall (s : State) (node : ref),
      len (cache (snd (write_node node s)))
      <= Z.max (len (cache s)) CACHE_SIZE) /\
  (fst (writes_1_2_3_1_4 fresh) = Ok tt /\
   cached_ids four_blocks = [2; 3; 4] /\
   lru_by_access [1; 2; 3; 1; 4] = [3; 1; 4] /\
   to_bytes (one_pair_leaf 1 10 100) = Ok (block_at four_blocks 1) /\
   read_node 1 four_blocks = (Raise StructError, four_blocks)) /\
  (let s := reopened four_blocks in
   fd s = fd four_blocks /\ cache s = [] /\
   fst (read_node 1 s) = Raise StructError /\
   read_four 1 2 3 4 s = s).
Proof.
  split; [| split; [exact read_node_bound_max |
                    split; [exact write_node_bound_max | split]]].
  - intros s bid. destruct (cache_get bid (cache s)) as [r |] eqn:Hc.
    + exact (read_node_hit s bid r Hc).
    + exact (read_node_miss s bid Hc).
  - split; [vm_compute; reflexivity |].
    split; [vm_compute; reflexivity |].
    split; [vm_compute; reflexivity |].
    split; [vm_compute; reflexivity |].
    apply (read_node_miss four_blocks 1). vm_compute. reflexivity.
  - cbv zeta.
    assert (R : forall bid, In bid [1; 2; 3; 4] ->
                read_node bid (reopened four_blocks) =
                (Raise StructError, reopened four_blocks)).
    { intros bid Hb.
      rewrite (read_node_miss (reopened four_blocks) bid)
        by (vm_compute; reflexivity).
      simpl in Hb.
      destruct Hb as [<- | [<- | [<- | [<- | []]]]]; reflexivity. }
    split; [vm_compute; reflexivity |].
    split; [vm_compute; reflexivity |].
    split; [rewrite (R 1) by (simpl; tauto); reflexivity |].
    unfold read_four.
    rewrite (R 1) by (simpl; tauto). cbn [snd].
    rewrite (R 2) by (simpl; tauto). cbn [snd].
    rewrite (R 3) by (simpl; tauto). cbn [snd].
    rewrite (R 4) by (simpl; tauto). reflexivity.
Qed.

(** ** The node codec *)

Lemma pack_slots_spec (n : nat) : forall (l : list Z) (bs : list byte),
  pack_slots n l = Ok bs ->
  length bs = (8 * n)%nat /\
  forall rest,
    unpack_Qs n (bs ++ rest) = firstn n l ++ repeat 0 (n - length l).
Proof.
  induction n as [| n IH]; intros l bs; cbn [pack_slots].
  - intro H. apply Ok_inj in H. subst bs. split; [reflexivity |].
    intro rest. reflexivity.
  - unfold bindO.
    destruct (pack_Q (match l with x :: _ => x | [] => 0 end))
      as [b |] eqn:Eb; [| discriminate].
    destruct (pack_slots n (tl l)) as [bs' |] eqn:Er; [| discriminate].
    intro H. apply Ok_inj in H. subst bs.
    apply pack_Q_inv in Eb. destruct Eb as [Hx ->].
    destruct (IH _ _ Er) as [Hl Hu]. split.
    + rewrite length_app, length_pack, Hl. lia.
    + intro rest. rewrite <- app_assoc, unpack_Qs_cons by exact Hx.
      rewrite Hu. destruct l as [| x l]; cbn [tl firstn length].
      * rewrite firstn_nil, !Nat.sub_0_r. reflexivity.
      * reflexivity.
Qed.

Lemma skipn_exact {A} (l1 l2 : list A) (n : nat) :
  length l1 = n -> skipn n (l1 ++ l2) = l2.
Proof.
  intros <-. rewrite skipn_app, skipn_all, Nat.sub_diag. reflexivity.
Qed.

(** C2 (fails on the code): the specification asks that decoding an encoded
    node gives the node back.  [from_bytes] decodes nothing: after the
    header, read with the format [>QQQ], it asks [struct] for ['>Q' * 19]
    and ['>Q' * 20], which repeat the byte-order mark before every code
    and which [struct] cannot read, so it raises [struct.error] on every
    buffer.  The leaf holding the pair (5, 50) as block 1 is encoded into
    512 bytes, and decoding those bytes raises. *)
Theorem round_trip_never_decodes :
  (forall data : list byte, from_bytes data = Raise StructError) /\
  (forall n : BTreeNode,
      exists e, (data <-- to_bytes n ;; from_bytes data)%pure = Raise e) /\
  (exists data : list byte,
      to_bytes (one_pair_leaf 1 5 50) = Ok data /\
      length data = 512%nat /\
      from_bytes data = Raise StructError) /\
  fields HEADER_FMT = Some 3%nat /\
  fields (str_mul ">Q"%string (Z.to_nat MAX_KEYS)) = None /\
  fields (str_mul ">Q"%string (Z.to_nat MAX_CHILDREN)) = None.
Proof.
  split; [exact from_bytes_raises |].
  split.
  - intro n. destruct (to_bytes n) as [data | e]; cbn [bindO].
    + exists StructError. apply from_bytes_raises.
    + exists e. reflexivity.
  - split; [| repeat split].
    destruct (to_bytes (one_pair_leaf 1 5 50)) as [data |] eqn:E.
    + exists data. split; [reflexivity |].
      split; [| apply from_bytes_raises].
      vm_compute in E. apply Ok_inj in E. subst data. reflexivity.
    + vm_compute in E. discriminate E.
Qed.

(** ** Splitting *)

(** A parent object without the [children] attribute stops [split_child]
    at line 271, before anything is read, allocated or written.  Every
    parent the program itself passes is such an object. *)
Lemma split_child_needs_children (s : State) (parent : ref) (nd : BTreeNode)
  (i : Z) :
  nth_error (heap s) parent = Some nd ->
  children nd = None ->
  split_child parent i s = (Raise AttributeError, s).
Proof.
  intros Hn Hc. unfold split_child, bind, deref. rewrite Hn.
  unfold lift, get_children. rewrite Hc. reflexivity.
Qed.

(** C3 (fails on the code): the specification asks that the new right node
    hold the last 9 keys and values of the full node.  Given a parent whose [children] attribute
    names block 1, a full cached leaf with keys 1 to 19, [split_child]
    returns with the left node (block 1) cut to keys 1 to 9, the median
    (10, 110) in the parent and block 3 inserted at position 1 of
    [parent.children], but the right node (block 3) holds the first 10 keys
    and values (lines 278-279 slice up to [t]), not keys 11 to 19.  On the
    parent as line 258 builds it the call raises AttributeError. *)
Theorem split_child_right_node_wrong :
  fst (split_run true) = Ok tt /\
  heap (snd (split_run true)) =
  [ mkNode 1 0 (consecutive 1 9) [] (consecutive 101 9) None;
    mkNode 2 0 [10] [1] [110] (Some [1; 3]);
    mkNode 3 2 (consecutive 1 10) [] (consecutive 101 10) None ] /\
  slice_from (consecutive 1 19) T = consecutive 11 9 /\
  consecutive 1 10 <> consecutive 11 9 /\
  fst (split_run false) = Raise AttributeError /\
  heap (snd (split_run false)) =
  [ full_leaf 1; mkNode 2 0 [] [1] [] None ].
Proof.
  split; [vm_compute; reflexivity |].
  split; [vm_compute; reflexivity |].
  split; [vm_compute; reflexivity |].
  split; [vm_compute; discriminate |].
  split; vm_compute; reflexivity.
Qed.

(** ** Insertion *)

Lemma always_raises_bind {A B} (m : M A) (k : A -> M B) :
  (forall a, always_raises (k a)) -> always_raises (bind m k).
Proof.
  intros Hk s. unfold bind. destruct (m s) as [[a | e] s1].
  - apply Hk.
  - exists e. reflexivity.
Qed.

Lemma always_raises_first {A B} (m : M A) (k : A -> M B) :
  always_raises m -> always_raises (bind m k).
Proof.
  intros Hm s. unfold bind. destruct (Hm s) as [e He].
  destruct (m s) as [[a | e'] s1]; simpl in He; [discriminate |].
  exists e'. reflexivity.
Qed.

Lemma insert_empty_raises (rd : reading) (fuel : nat) (key value : Z)
  (s : State) :
  root_id s = 0 -> exists e, fst (insert rd fuel key value s) = Raise e.
Proof.
  intro H. unfold insert. unfold bind at 1, gets at 1. rewrite H.
  change (0 =? 0) with true. cbv iota.
  revert s H. intros s _. revert s.
  change (always_raises
    (suite_245 rd ;;
     bid <- allocate_block ;;
     root <- new_node (BTreeNode_init bid 0 [] [] []) ;;
     assign root (with_keys [key]) ;;
     assign root (with_values [value]) ;;
     write_node root ;;
     line_250 bid ;;
     syn_header ;;
     ret tt)).
  do 7 (apply always_raises_bind; intro).
  apply always_raises_first. intro s. exists AttributeError. reflexivity.
Qed.

Lemma insert_as_written_empty (fuel : nat) (key value : Z) (s : State) :
  root_id s = 0 ->
  insert AsWritten fuel key value s = (Raise SyntaxError, s).
Proof.
  intro H. unfold insert. unfold bind at 1, gets at 1. rewrite H.
  reflexivity.
Qed.

(** C5 (fails on the code): the specification asks that [insert] on an
    empty tree make the new leaf the root and persist the header before
    returning.  On an empty tree [insert] never returns.  With line 250 as
    written nothing of lines 245-251 runs: the call raises and the store is
    as it was.  With the line read as the assignment to [root_id] the leaf
    is allocated and written and [root_id] is set in memory, and then line
    251 calls [syn_header], a method [FileManager] does not have: the call
    raises AttributeError and the header is never written with the new
    root.  For [insert(5, 50)] on a new index under that reading, block 1
    holds the encoded leaf and [root_id] is 1 in memory, while the header
    on disk names root 0 and next block 2. *)
Theorem insert_into_empty_tree_raises :
  (forall (rd : reading) (fuel : nat) (key value : Z) (s : State),
      exists e,
        fst (insert rd fuel key value (set_root_id 0 s)) = Raise e) /\
  (forall (fuel : nat) (key value : Z) (s : State),
      insert AsWritten fuel key value (set_root_id 0 s) =
      (Raise SyntaxError, set_root_id 0 s)) /\
  (let s := snd (insert AsRootId 100 5 50 fresh) in
   fst (insert AsRootId 100 5 50 fresh) = Raise AttributeError /\
   root_id s = 1 /\ next_block_id s = 2 /\
   unpack_from 2 (fd s) 8 = Ok [0; 2] /\
   heap s = [one_pair_leaf 1 5 50] /\
   cached_ids s = [1] /\
   to_bytes (one_pair_leaf 1 5 50) = Ok (block_at s 1)).
Proof.
  split; [| split].
  - intros rd fuel key value s. apply insert_empty_raises. reflexivity.
  - intros fuel key value s. apply insert_as_written_empty. reflexivity.
  - vm_compute. repeat split.
Qed.

(** C4 (fails on the code): the specification asks [collect] to return
    every inserted pair.  After the pairs (1, 101) to (20, 120) are inserted into a new index, [collect]
    returns no pair at all with line 250 as written (the root is never
    set), and the first 19 pairs with line 250 read as the assignment (the
    twentieth insert raises AttributeError in [split_child]).  After the
    single insert of (5, 50), with line 250 as written, [collect] is
    empty. *)
Theorem collect_after_inserts :
  (forall rd : reading,
      fst (collect 100 (insert_each rd 100 pairs_1_20 fresh)) =
      Ok (match rd with
          | AsWritten => []
          | AsRootId => firstn 19 pairs_1_20
          end)) /\
  (forall rd : reading,
      fst (insert rd 100 20 120
             (insert_each rd 100 (firstn 19 pairs_1_20) fresh)) =
      Raise (match rd with
             | AsWritten => SyntaxError
             | AsRootId => AttributeError
             end)) /\
  fst (collect 100 (insert_each AsWritten 100 [(5, 50)] fresh)) = Ok [].
Proof.
  split; [| split].
  - intros []; vm_compute; reflexivity.
  - intros []; vm_compute; reflexivity.
  - vm_compute. reflexivity.
Qed.

(** C7 (fails on the code): the claim has [search] return one of the two
    values after a key was inserted twice.  [search] returns no value at
    all, whatever was inserted: after every sequence of inserts into a new
    index, for every block id and key, it returns not-found or raises,
    because line 221 repeats the scan condition.  The rest of the claim
    holds where [insert] runs: with line 250 read as the assignment, after
    [insert(5, 50)] on a new index (which raises at line 251 with the leaf
    cached as the root), [insert(5, 51)] returns without any duplicate-key
    error and leaves the root leaf, in memory and on disk, with keys
    [5, 5] and values [50, 51]; [search(5)] is then not-found. *)
Theorem duplicate_key_search :
  (forall (rd : reading) (fuel fuel' : nat) (pairs : list (Z * Z))
          (bid key v : Z),
      fst (search fuel bid key (insert_each rd fuel' pairs fresh))
      <> Ok (Some v)) /\
  (let s1 := insert_each AsRootId 100 [(5, 50)] fresh in
   let s2 := snd (insert AsRootId 100 5 51 s1) in
   fst (insert AsRootId 100 5 51 s1) = Ok tt /\
   root_id s2 = 1 /\
   heap s2 = [mkNode 1 0 [5; 5] [] [50; 51] None] /\
   to_bytes (mkNode 1 0 [5; 5] [] [50; 51] None) = Ok (block_at s2 1) /\
   fst (search 100 (root_id s2) 5 s2) = Ok None).
Proof.
  split.
  - intros rd fuel fuel' pairs bid key v. apply never_found_search.
  - vm_compute. repeat split.
Qed.

(** * Further properties of the code *)

(** ** Encoding a node *)

Lemma in_u64_dec (v : Z) : {in_u64 v} + {~ in_u64 v}.
Proof.
  unfold in_u64.
  destruct (Z_le_dec 0 v); [| right; lia].
  destruct (Z_lt_dec v (2 ^ 64)); [left; lia | right; lia].
Qed.

Lemma pack_Q_raises (v : Z) : ~ in_u64 v -> pack_Q v = Raise StructError.
Proof.
  unfold in_u64, pack_Q. intro H.
  destruct (0 <=? v) eqn:E0; [| reflexivity].
  destruct (v <? 2 ^ 64) eqn:E1; [| reflexivity].
  apply Z.leb_le in E0. apply Z.ltb_lt in E1. lia.
Qed.

Lemma in_u64_0 : in_u64 0.
Proof. unfold in_u64. lia. Qed.

(** A slot loop succeeds exactly when the entries it packs fit. *)
Lemma pack_slots_cases (n : nat) : forall l : list Z,
  (Forall in_u64 (firstn n l) /\ exists bs, pack_slots n l = Ok bs) \/
  (~ Forall in_u64 (firstn n l) /\ pack_slots n l = Raise StructError).
Proof.
  induction n as [| n IH]; intro l; cbn [pack_slots].
  - left. split; [constructor | eexists; reflexivity].
  - destruct l as [| x l]; cbn [firstn tl].
    + rewrite (pack_Q_ok 0 in_u64_0). cbn [bindO].
      destruct (IH []) as [[_ [bs E]] | [H _]].
      * rewrite E. left. split; [constructor | eexists; reflexivity].
      * exfalso. apply H. rewrite firstn_nil. constructor.
    + destruct (in_u64_dec x) as [Hx | Hx].
      * rewrite (pack_Q_ok x Hx). cbn [bindO].
        destruct (IH l) as [[Hl [bs E]] | [Hl E]]; rewrite E; cbn [bindO].
        -- left. split; [constructor; assumption | eexists; reflexivity].
        -- right. split; [| reflexivity].
           intro H. apply Hl. exact (Forall_inv_tail H).
      * rewrite (pack_Q_raises x Hx). right. split; [| reflexivity].
        intro H. apply Hx. exact (Forall_inv H).
Qed.

Lemma to_bytes_length (n : BTreeNode) (data : list byte) :
  to_bytes n = Ok data -> length data = 512%nat.
Proof.
  unfold to_bytes, bindO.
  destruct (pack_Q (block_id n)) as [b0 |] eqn:E0; [| discriminate].
  destruct (pack_Q (parent_id n)) as [b1 |] eqn:E1; [| discriminate].
  destruct (pack_Q (len (keys n))) as [b2 |] eqn:E2; [| discriminate].
  destruct (pack_slots (Z.to_nat MAX_KEYS) (keys n)) as [ks |] eqn:Ek;
    [| discriminate].
  destruct (pack_slots (Z.to_nat MAX_KEYS) (values n)) as [vs |] eqn:Ev;
    [| discriminate].
  destruct (pack_slots (Z.to_nat MAX_CHILDREN) (num_children n))
    as [cs |] eqn:Ecs; [| discriminate].
  intro H. apply Ok_inj in H. subst data.
  apply pack_Q_inv in E0. destruct E0 as [_ ->].
  apply pack_Q_inv in E1. destruct E1 as [_ ->].
  apply pack_Q_inv in E2. destruct E2 as [_ ->].
  destruct (pack_slots_spec _ _ _ Ek) as [Lk _].
  destruct (pack_slots_spec _ _ _ Ev) as [Lv _].
  destruct (pack_slots_spec _ _ _ Ecs) as [Lc _].
  rewrite !length_app, !length_pack, Lk, Lv, Lc. reflexivity.
Qed.

Lemma to_bytes_cases (n : BTreeNode) :
  (packable n /\ exists data, to_bytes n = Ok data) \/
  (~ packable n /\ to_bytes n = Raise StructError).
Proof.
  unfold packable, to_bytes.
  change (Z.to_nat MAX_KEYS) with 19%nat.
  change (Z.to_nat MAX_CHILDREN) with 20%nat.
  destruct (in_u64_dec (block_id n)) as [H0 | H0];
    [rewrite (pack_Q_ok _ H0) | rewrite (pack_Q_raises _ H0); right; tauto].
  destruct (in_u64_dec (parent_id n)) as [H1 | H1];
    [rewrite (pack_Q_ok _ H1) | rewrite (pack_Q_raises _ H1); right; tauto].
  destruct (in_u64_dec (len (keys n))) as [H2 | H2];
    [rewrite (pack_Q_ok _ H2) | rewrite (pack_Q_raises _ H2); right; tauto].
  cbn [bindO].
  destruct (pack_slots_cases 19 (keys n)) as [[Hk [ks Ek]] | [Hk Ek]];
    rewrite Ek; cbn [bindO]; [| right; tauto].
  destruct (pack_slots_cases 19 (values n)) as [[Hv [vs Ev]] | [Hv Ev]];
    rewrite Ev; cbn [bindO]; [| right; tauto].
  destruct (pack_slots_cases 20 (num_children n))
    as [[Hc [cs Ec]] | [Hc Ec]];
    rewrite Ec; cbn [bindO]; [| right; tauto].
  left. split; [tauto | eexists; reflexivity].
Qed.

(** X2: [to_bytes] returns a block, always of 512 bytes, exactly when the
    ids, the key count and the entries that land in the slots fit 64 bits;
    otherwise it raises [struct.error].  Entries past the 19th key or value
    and past the 20th child are not looked at. *)
Theorem to_bytes_spec (n : BTreeNode) :
  (packable n ->
   exists data, to_bytes n = Ok data /\ length data = 512%nat) /\
  (~ packable n -> to_bytes n = Raise StructError).
Proof.
  split.
  - intro H. destruct (to_bytes_cases n) as [[_ [data E]] | [N _]];
      [| contradiction].
    exists data. split; [exact E | exact (to_bytes_length n data E)].
  - intro H. destruct (to_bytes_cases n) as [[P _] | [_ E]];
      [contradiction | exact E].
Qed.

Lemma to_bytes_spec_witness :
  packable (one_pair_leaf 1 5 50) /\
  ~ packable (one_pair_leaf 1 (2 ^ 64) 50) /\
  (exists data,
      to_bytes (one_pair_leaf 1 5 50) = Ok data /\ length data = 512%nat) /\
  to_bytes (one_pair_leaf 1 (2 ^ 64) 50) = Raise StructError.
Proof.
  assert (P : packable (one_pair_leaf 1 5 50)).
  { unfold packable, one_pair_leaf, len.
    cbn [BTreeNode_init with_keys with_values block_id parent_id keys values
         num_children firstn length].
    repeat split; repeat constructor; unfold in_u64; lia. }
  assert (N : ~ packable (one_pair_leaf 1 (2 ^ 64) 50)).
  { unfold packable, one_pair_leaf.
    cbn [BTreeNode_init with_keys with_values block_id parent_id keys values
         num_children firstn].
    intros (_ & _ & _ & H & _).
    apply Forall_inv in H. unfold in_u64 in H. lia. }
  split; [exact P |]. split; [exact N |].
  split.
  - exact (proj1 (to_bytes_spec (one_pair_leaf 1 5 50)) P).
  - exact (proj2 (to_bytes_spec (one_pair_leaf 1 (2 ^ 64) 50)) N).
Defined.

(** ** The header block on disk *)

Lemma header_block_raises (r n : Z) :
  ~ (in_u64 r /\ in_u64 n) -> header_block r n = Raise StructError.
Proof.
  intro H. unfold header_block.
  destruct (in_u64_dec r) as [Hr | Hr];
    [rewrite (pack_Q_ok r Hr) | rewrite (pack_Q_raises r Hr); reflexivity].
  destruct (in_u64_dec n) as [Hn | Hn]; [tauto |].
  rewrite (pack_Q_raises n Hn). reflexivity.
Qed.

(** X5: [open(create=True)] discards whatever the file held and leaves it
    a single 512-byte header block with the signature, root id 0 and next
    block id 1; the attributes of the handle are not touched. *)
Theorem open_create_spec (s : State) :
  exists hdr,
    open_ true s = (Ok tt, set_fd hdr s) /\
    length hdr = 512%nat /\
    firstn 8 hdr = MAGIC /\
    unpack_from 2 hdr 8 = Ok [0; 1].
Proof.
  assert (H0 : in_u64 0) by apply in_u64_0.
  assert (H1 : in_u64 1) by (unfold in_u64; lia).
  pose proof (header_block_ok 0 1 H0 H1) as Hb.
  eexists. split; [| split; [| split]].
  - unfold open_, bind, modify, lift. rewrite Hb.
    unfold fd_write_at. rewrite seek_ok_0. unfold modify.
    cbn [fd set_fd]. rewrite write_at_0, skipn_nil, app_nil_r.
    reflexivity.
  - exact (header_block_length _ _ _ Hb).
  - destruct (header_block_decodes _ _ _ [] Hb) as [A _].
    rewrite app_nil_r in A. exact A.
  - destruct (header_block_decodes _ _ _ [] Hb) as [_ B].
    rewrite app_nil_r in B. exact B.
Qed.

(** X6: with both ids within 64 bits [sync_header] rewrites the first 512
    bytes of the file as the header naming the current [root_id] and
    [next_block_id], which decode back from the file, and leaves the rest of
    the file and the handle alone; with an id out of range it raises
    [struct.error] and nothing changes. *)
Theorem sync_header_spec (s : State) :
  (in_u64 (root_id s) -> in_u64 (next_block_id s) ->
   exists buf,
     sync_header s = (Ok tt, set_fd (buf ++ skipn 512 (fd s)) s) /\
     length buf = 512%nat /\
     firstn 8 (buf ++ skipn 512 (fd s)) = MAGIC /\
     unpack_from 2 (buf ++ skipn 512 (fd s)) 8 =
     Ok [root_id s; next_block_id s]) /\
  (~ (in_u64 (root_id s) /\ in_u64 (next_block_id s)) ->
   sync_header s = (Raise StructError, s)).
Proof.
  split.
  - intros Hr Hn. pose proof (header_block_ok _ _ Hr Hn) as Hb.
    eexists. split; [exact (sync_header_ok s _ Hb) |].
    split; [exact (header_block_length _ _ _ Hb) |].
    exact (header_block_decodes _ _ _ (skipn 512 (fd s)) Hb).
  - intro H. exact (sync_header_raises s _ (header_block_raises _ _ H)).
Qed.

Lemma sync_header_spec_witness :
  (in_u64 (root_id fresh) /\ in_u64 (next_block_id fresh)) /\
  ~ (in_u64 (root_id last_id_store) /\
     in_u64 (next_block_id (set_next_block_id (2 ^ 64) last_id_store))) /\
  (exists buf,
      sync_header fresh = (Ok tt, set_fd (buf ++ skipn 512 (fd fresh)) fresh) /\
      length buf = 512%nat /\
      firstn 8 (buf ++ skipn 512 (fd fresh)) = MAGIC /\
      unpack_from 2 (buf ++ skipn 512 (fd fresh)) 8 = Ok [0; 1]) /\
  sync_header (set_next_block_id (2 ^ 64) last_id_store) =
  (Raise StructError, set_next_block_id (2 ^ 64) last_id_store).
Proof.
  assert (A : in_u64 (root_id fresh)) by (unfold in_u64; cbn; lia).
  assert (B : in_u64 (next_block_id fresh)) by (unfold in_u64; cbn; lia).
  assert (C : ~ (in_u64 (root_id last_id_store) /\
                 in_u64 (next_block_id
                           (set_next_block_id (2 ^ 64) last_id_store)))).
  { unfold in_u64. cbn [set_next_block_id next_block_id]. lia. }
  split; [split; assumption |]. split; [exact C |].
  split.
  - exact (proj1 (sync_header_spec fresh) A B).
  - exact (proj2 (sync_header_spec
                    (set_next_block_id (2 ^ 64) last_id_store)) C).
Defined.

(** ** Writing and reading blocks *)

Lemma length_zeros (n : Z) : length (zeros n) = Z.to_nat n.
Proof. unfold zeros. apply repeat_length. Qed.

Lemma write_at_prefix_length (pos : Z) (old : list byte) :
  length (firstn (Z.to_nat pos) old ++ zeros (pos - len old)) = Z.to_nat pos.
Proof.
  rewrite length_app, length_firstn, length_zeros. unfold len. lia.
Qed.

(** What was written at [pos] is what is read there. *)
Lemma write_at_read_back (pos : Z) (data old : list byte) :
  firstn (length data) (skipn (Z.to_nat pos) (write_at pos data old)) = data.
Proof.
  unfold write_at. rewrite app_assoc.
  rewrite skipn_exact by apply write_at_prefix_length.
  rewrite firstn_app, firstn_all, Nat.sub_diag. simpl. apply app_nil_r.
Qed.

Lemma firstn_skipn_prefix {A} (a n p : nat) (old rest : list A) :
  (a + n <= p)%nat -> (a + n <= length old)%nat ->
  firstn n (skipn a (firstn p old ++ rest)) = firstn n (skipn a old).
Proof.
  intros Hp Hl.
  rewrite skipn_app, firstn_app.
  rewrite length_skipn, length_firstn.
  replace (n - (Nat.min p (length old) - a))%nat with 0%nat by lia.
  cbn [firstn]. rewrite app_nil_r.
  rewrite skipn_firstn_comm, firstn_firstn.
  replace (Nat.min n (p - a)) with n by lia. reflexivity.
Qed.

(** A block lying wholly before the written range is untouched. *)
Lemma write_at_before (pos : Z) (data old : list byte) (a n : nat) :
  0 <= pos -> (a + n <= Z.to_nat pos)%nat -> (a + n <= length old)%nat ->
  firstn n (skipn a (write_at pos data old)) = firstn n (skipn a old).
Proof.
  intros H0 Hp Hl. unfold write_at.
  apply firstn_skipn_prefix; assumption.
Qed.

(** So is a block of the old file lying wholly after it. *)
Lemma write_at_after (pos : Z) (data old : list byte) (a : nat) :
  0 <= pos -> (Z.to_nat pos + length data <= a)%nat ->
  (a <= length old)%nat ->
  skipn a (write_at pos data old) = skipn a old.
Proof.
  intros H0 Hp Hl. unfold write_at.
  replace (zeros (pos - len old)) with (@nil byte)
    by (unfold zeros, len; replace (Z.to_nat (pos - Z.of_nat (length old)))
          with 0%nat by lia; reflexivity).
  cbn [app]. rewrite app_assoc.
  rewrite skipn_app.
  rewrite (skipn_all2 (n := a))
    by (rewrite length_app, length_firstn; lia).
  cbn [app]. rewrite length_app, length_firstn, skipn_skipn.
  unfold len. f_equal. lia.
Qed.

Lemma cache_get_set (k : Z) (r : ref) : forall c,
  cache_get k (cache_set k r c) = Some r.
Proof.
  induction c as [| [k' r'] c IH]; simpl.
  - rewrite Z.eqb_refl. reflexivity.
  - destruct (k' =? k) eqn:E; simpl.
    + rewrite Z.eqb_refl. reflexivity.
    + rewrite E. exact IH.
Qed.

Lemma cache_get_app_new (k : Z) (r : ref) : forall c,
  cache_get k c = None -> cache_get k (c ++ [(k, r)]) = Some r.
Proof.
  intros c H. rewrite <- (cache_set_absent k r c H). apply cache_get_set.
Qed.

Lemma cache_get_tl_absent (k : Z) (c : list (Z * ref)) :
  cache_get k c = None -> cache_get k (tl c) = None.
Proof.
  destruct c as [| [k' r'] c]; simpl; [auto |].
  destruct (k' =? k); [discriminate | auto].
Qed.

(** Within the capacity, the entry just set survives the eviction. *)
Lemma cache_get_evict_set (k : Z) (r : ref) (c : list (Z * ref)) :
  (length c <= 3)%nat ->
  cache_get k (evict (cache_set k r c)) = Some r.
Proof.
  intro H. destruct (cache_get k c) as [r' |] eqn:Hc.
  - rewrite evict_within; [apply cache_get_set |].
    rewrite <- (length_map fst), (cache_set_present_ids k r c r' Hc),
      length_map. exact H.
  - rewrite (cache_set_absent k r c Hc). unfold evict.
    destruct (len (c ++ [(k, r)]) >? CACHE_SIZE) eqn:G.
    + destruct c as [| e c]; [discriminate G |].
      cbn [app tl]. apply cache_get_app_new.
      exact (cache_get_tl_absent k (e :: c) Hc).
    + apply cache_get_app_new. exact Hc.
Qed.

Lemma write_node_through (s : State) (node : ref) (nd : BTreeNode) :
  nth_error (heap s) node = Some nd ->
  packable nd ->
  seek_ok (block_id nd * BLOCK_SIZE) = true ->
  exists data,
    to_bytes nd = Ok data /\
    write_node node s =
    (Ok tt,
     mkState (write_at (block_id nd * BLOCK_SIZE) data (fd s))
             (root_id s) (next_block_id s)
             (evict (cache_set (block_id nd) node (cache s))) (heap s)) /\
    firstn (Z.to_nat BLOCK_SIZE)
      (skipn (Z.to_nat (block_id nd * BLOCK_SIZE))
         (write_at (block_id nd * BLOCK_SIZE) data (fd s))) = data.
Proof.
  intros Hn Hp Hs.
  destruct (to_bytes_cases nd) as [[_ [data E]] | [N _]]; [| contradiction].
  exists data. split; [exact E |].
  split; [exact (write_node_ok s node nd data Hn E Hs) |].
  change (Z.to_nat BLOCK_SIZE) with 512%nat.
  rewrite <- (to_bytes_length nd data E). apply write_at_read_back.
Qed.

(** X7: [write_node] of a node whose fields fit, at a block offset the file
    accepts, is write-through: it returns, the block of the file at the
    node's id now holds exactly the node's encoding, every other block the
    file already held in full is unchanged, and so are the node objects,
    [root_id] and [next_block_id]. *)
Theorem write_node_spec (s : State) (node : ref) (nd : BTreeNode) :
  nth_error (heap s) node = Some nd ->
  packable nd ->
  seek_ok (block_id nd * BLOCK_SIZE) = true ->
  let s' := snd (write_node node s) in
  fst (write_node node s) = Ok tt /\
  to_bytes nd = Ok (block_at s' (block_id nd)) /\
  (forall b : Z,
      0 <= b -> b <> block_id nd -> (b + 1) * BLOCK_SIZE <= len (fd s) ->
      block_at s' b = block_at s b) /\
  heap s' = heap s /\ root_id s' = root_id s /\
  next_block_id s' = next_block_id s.
Proof.
  intros Hn Hp Hs.
  destruct (to_bytes_cases nd) as [[_ [data E]] | [N _]]; [| contradiction].
  pose proof (to_bytes_length nd data E) as L.
  rewrite (write_node_ok s node nd data Hn E Hs). cbn [fst snd].
  unfold block_at. cbn [fd heap root_id next_block_id].
  assert (H0 : 0 <= block_id nd * BLOCK_SIZE).
  { unfold seek_ok in Hs. apply andb_prop in Hs. destruct Hs as [Hs _].
    apply Z.leb_le in Hs. exact Hs. }
  split; [reflexivity |]. split; [| split; [| repeat split]].
  - rewrite E. f_equal. symmetry.
    change (Z.to_nat BLOCK_SIZE) with 512%nat. rewrite <- L.
    apply write_at_read_back.
  - intros b Hb Hne Hl. unfold BLOCK_SIZE, len in *.
    change (Z.to_nat 512) with 512%nat.
    destruct (Z_lt_dec b (block_id nd)) as [Lt | Ge].
    + apply write_at_before; lia.
    + f_equal. apply write_at_after; lia.
Qed.

Lemma write_node_spec_witness :
  (nth_error (heap four_blocks) 0%nat = Some (one_pair_leaf 1 10 100) /\
   packable (one_pair_leaf 1 10 100) /\
   seek_ok (block_id (one_pair_leaf 1 10 100) * BLOCK_SIZE) = true) /\
  fst (write_node 0%nat four_blocks) = Ok tt /\
  to_bytes (one_pair_leaf 1 10 100) =
  Ok (block_at (snd (write_node 0%nat four_blocks)) 1) /\
  block_at (snd (write_node 0%nat four_blocks)) 2 = block_at four_blocks 2.
Proof.
  assert (A : nth_error (heap four_blocks) 0%nat = Some (one_pair_leaf 1 10 100))
    by (vm_compute; reflexivity).
  assert (P : packable (one_pair_leaf 1 10 100)).
  { unfold packable, one_pair_leaf, len.
    cbn [BTreeNode_init with_keys with_values block_id parent_id keys values
         num_children firstn length].
    repeat split; repeat constructor; unfold in_u64; lia. }
  assert (S : seek_ok (block_id (one_pair_leaf 1 10 100) * BLOCK_SIZE) = true)
    by (vm_compute; reflexivity).
  split; [split; [exact A | split; [exact P | exact S]] |].
  destruct (write_node_spec four_blocks 0%nat _ A P S) as (R & D & F & _).
  split; [exact R |]. split; [exact D |].
  apply F.
  - lia.
  - cbn. lia.
  - vm_compute. discriminate.
Defined.

(** X8: while the cache holds at most 3 entries, a node written with
    [write_node] is what [read_node] of its block id returns next: the same
    object, served from the cache, with no new object decoded. *)
Theorem read_after_write (s : State) (node : ref) :
  (length (cache s) <= 3)%nat ->
  fst (write_node node s) = Ok tt ->
  exists nd,
    nth_error (heap s) node = Some nd /\
    let s' := snd (write_node node s) in
    fst (read_node (block_id nd) s') = Ok node /\
    heap (snd (read_node (block_id nd) s')) = heap s.
Proof.
  intros H E.
  destruct (write_node_returns s node tt E) as (nd & data & A & B & C).
  exists nd. split; [exact A |].
  rewrite (write_node_ok s node nd data A B C). cbn [snd].
  match goal with |- context [read_node ?k ?st] =>
    assert (G : cache_get k (cache st) = Some node)
      by (cbn [cache]; apply cache_get_evict_set; exact H);
    rewrite (read_node_hit st k node G)
  end.
  split; reflexivity.
Qed.

Lemma read_after_write_witness :
  ((length (cache four_blocks) <= 3)%nat /\
   fst (write_node 0%nat four_blocks) = Ok tt) /\
  exists nd,
    nth_error (heap four_blocks) 0%nat = Some nd /\
    fst (read_node (block_id nd) (snd (write_node 0%nat four_blocks))) = Ok 0%nat /\
    heap (snd (read_node (block_id nd) (snd (write_node 0%nat four_blocks)))) =
    heap four_blocks.
Proof.
  assert (A : (length (cache four_blocks) <= 3)%nat) by (vm_compute; lia).
  assert (B : fst (write_node 0%nat four_blocks) = Ok tt)
    by (vm_compute; reflexivity).
  split; [split; assumption |].
  exact (read_after_write four_blocks 0%nat A B).
Defined.

Lemma sync_header_failed (s : State) (e : exn) :
  fst (sync_header s) = Raise e -> snd (sync_header s) = s.
Proof.
  destruct (header_block (root_id s) (next_block_id s)) as [buf | e'] eqn:E.
  - rewrite (sync_header_ok s buf E). discriminate.
  - rewrite (sync_header_raises s e' E). reflexivity.
Qed.

Lemma allocate_block_failed (s : State) (e : exn) :
  fst (allocate_block s) = Raise e ->
  snd (allocate_block s) = set_next_block_id (next_block_id s + 1) s.
Proof.
  unfold allocate_block, bind, gets, modify.
  set (s1 := set_next_block_id (next_block_id s + 1) s).
  pose proof (sync_header_failed s1) as F.
  destruct (sync_header s1) as [[u | e'] s2]; cbn [fst snd] in *.
  - discriminate.
  - intros _. exact (F e' eq_refl).
Qed.

Lemma read_node_short_block (s : State) (bid : Z) :
  cache_get bid (cache s) = None ->
  seek_ok (bid * BLOCK_SIZE) = true ->
  len (block_at s bid) < 488 ->
  read_node bid s = (Raise StructError, s).
Proof.
  intros Hc Hs _. rewrite (read_node_miss s bid Hc), Hs. reflexivity.
Qed.

(** X9: a [read_node], [write_node] or [sync_header] call that raises
    leaves the whole store, file and cache included, as it was; reading a
    block that is not cached and has fewer than 488 bytes in the file (one
    past the end, say) is such a call and raises [struct.error].
    [allocate_block] is different: when it raises, [next_block_id] has
    already been incremented in memory, and nothing else has changed. *)
Theorem failed_calls (s : State) :
  (forall bid e,
      fst (read_node bid s) = Raise e -> snd (read_node bid s) = s) /\
  (forall bid,
      cache_get bid (cache s) = None ->
      seek_ok (bid * BLOCK_SIZE) = true ->
      len (block_at s bid) < 488 ->
      read_node bid s = (Raise StructError, s)) /\
  (forall node e,
      fst (write_node node s) = Raise e -> snd (write_node node s) = s) /\
  (forall e, fst (sync_header s) = Raise e -> snd (sync_header s) = s) /\
  (forall e,
      fst (allocate_block s) = Raise e ->
      snd (allocate_block s) = set_next_block_id (next_block_id s + 1) s).
Proof.
  split; [| split; [| split; [| split]]].
  - intros bid e. apply read_node_raises.
  - intro bid. apply read_node_short_block.
  - intros node e. apply write_node_raises.
  - apply sync_header_failed.
  - apply allocate_block_failed.
Qed.

Lemma failed_calls_witness :
  (cache_get 9 (cache fresh) = None /\
   seek_ok (9 * BLOCK_SIZE) = true /\
   len (block_at fresh 9) < 488) /\
  read_node 9 fresh = (Raise StructError, fresh) /\
  (let s1 := snd (new_node (one_pair_leaf 1 (2 ^ 64) 50) fresh) in
   fst (write_node 0%nat s1) = Raise StructError /\
   snd (write_node 0%nat s1) = s1) /\
  snd (allocate_block last_id_store) =
  set_next_block_id (2 ^ 64) last_id_store.
Proof.
  assert (A : cache_get 9 (cache fresh) = None) by reflexivity.
  assert (B : seek_ok (9 * BLOCK_SIZE) = true) by reflexivity.
  assert (C : len (block_at fresh 9) < 488) by (vm_compute; reflexivity).
  split; [split; [exact A | split; [exact B | exact C]] |].
  destruct (failed_calls fresh) as (_ & R & _).
  destruct (failed_calls (snd (new_node (one_pair_leaf 1 (2 ^ 64) 50) fresh)))
    as (_ & _ & W & _).
  destruct (failed_calls last_id_store) as (_ & _ & _ & _ & L).
  split; [exact (R 9 A B C) |].
  split.
  - assert (E : fst (write_node 0%nat
                       (snd (new_node (one_pair_leaf 1 (2 ^ 64) 50) fresh)))
                = Raise StructError) by (vm_compute; reflexivity).
    split; [exact E | exact (W 0%nat StructError E)].
  - apply (L StructError). vm_compute. reflexivity.
Defined.

(** ** What the tree operations inherit from the block store *)

Lemma pres_deref (R : State -> State -> Prop) (r : ref) :
  (forall s, R s s) -> preserves R (deref r).
Proof.
  intros Hr s. unfold deref. destruct (nth_error (heap s) r); apply Hr.
Qed.

(** Any reflexive and transitive relation between stores that the block
    store calls and the object operations keep is kept by every tree
    operation, whether it returns or raises. *)
Ltac tree_steps :=
  repeat first
    [ solve [auto]
    | apply pres_ret; solve [auto]
    | apply pres_raise; solve [auto]
    | apply pres_lift; solve [auto]
    | apply pres_gets; solve [auto]
    | apply pres_bind; [ solve [eauto] | | intro ]
    | match goal with
      | |- preserves _ (if ?b then _ else _) => destruct b
      | |- preserves _ (match ?x with _ => _ end) => destruct x
      end ].

Section TreeOps.
Variable R : State -> State -> Prop.
Hypothesis R_refl : forall s, R s s.
Hypothesis R_trans : forall s1 s2 s3, R s1 s2 -> R s2 s3 -> R s1 s3.
Hypothesis R_read : forall bid, preserves R (read_node bid).
Hypothesis R_write : forall node, preserves R (write_node node).
Hypothesis R_alloc : preserves R allocate_block.
Hypothesis R_new : forall n, preserves R (new_node n).
Hypothesis R_assign : forall r f, preserves R (assign r f).
Hypothesis R_sync : preserves R sync_header.
Hypothesis R_root : forall x, preserves R (modify (set_root_id x)).

Lemma tree_deref (r : ref) : preserves R (deref r).
Proof. apply pres_deref. exact R_refl. Qed.

#[local] Hint Resolve tree_deref : core.

Lemma tree_search (fuel : nat) : forall bid key,
  preserves R (search fuel bid key).
Proof.
  induction fuel as [| fuel IH]; intros bid key; cbn [search].
  - tree_steps.
  - tree_steps; auto.
Qed.

Lemma tree_traverse (fuel : nat) : forall bid pairs,
  preserves R (traverse fuel bid pairs).
Proof.
  induction fuel as [| fuel IH]; intros bid pairs; cbn [traverse].
  - tree_steps.
  - destruct (bid =? 0); [tree_steps |].
    apply pres_bind; eauto. intro node.
    apply pres_bind; eauto. intro nd.
    apply pres_bind; eauto.
    + generalize 0 at 1. generalize pairs.
      induction (keys nd) as [| k ks IHks]; intros ps i.
      * tree_steps.
      * tree_steps; auto.
    + intro ps. tree_steps; auto.
Qed.

Lemma tree_collect (fuel : nat) : preserves R (collect fuel).
Proof.
  unfold collect. apply pres_bind; [exact R_trans | |].
  - apply pres_gets. exact R_refl.
  - intro r. apply tree_traverse.
Qed.

Lemma tree_reparent (cs : list Z) (z_bid : Z) :
  preserves R (reparent cs z_bid).
Proof.
  induction cs as [| c cs IH]; cbn [reparent].
  - tree_steps.
  - tree_steps; auto.
Qed.

#[local] Hint Resolve tree_reparent : core.

Lemma tree_split_child (parent : ref) (i : Z) :
  preserves R (split_child parent i).
Proof. unfold split_child. tree_steps; auto. Qed.

Lemma tree_shift_loop (n : nat) (node : ref) (key : Z) :
  preserves R (shift_loop n node key).
Proof.
  induction n as [| n IH]; cbn [shift_loop].
  - tree_steps.
  - tree_steps; auto.
Qed.

#[local] Hint Resolve tree_split_child tree_shift_loop : core.

Lemma tree_insert_nonfull (fuel : nat) : forall node key value,
  preserves R (insert_nonfull fuel node key value).
Proof.
  induction fuel as [| fuel IH]; intros node key value; cbn [insert_nonfull].
  - tree_steps.
  - tree_steps; auto.
Qed.

#[local] Hint Resolve tree_insert_nonfull : core.

Lemma tree_insert (rd : reading) (fuel : nat) (key value : Z) :
  preserves R (insert rd fuel key value).
Proof.
  unfold insert, suite_245, line_250, syn_header. tree_steps; auto.
Qed.
End TreeOps.

Ltac prim_steps tac :=
  repeat first
    [ apply pres_ret; solve [auto]
    | apply pres_raise; solve [auto]
    | apply pres_lift; solve [auto]
    | apply pres_gets; solve [auto]
    | apply pres_modify; intro; solve [tac]
    | apply pres_deref; solve [auto]
    | apply pres_bind; [ solve [eauto] | | intro ]
    | match goal with
      | |- preserves _ (if ?b then _ else _) => destruct b
      | |- preserves _ (match ?x with _ => _ end) => destruct x
      end ].

(** *** The cache bound *)

Lemma keeps_cache_bound_refl s : keeps_cache_bound s s.
Proof. intro H. exact H. Qed.

Lemma keeps_cache_bound_trans s1 s2 s3 :
  keeps_cache_bound s1 s2 -> keeps_cache_bound s2 s3 ->
  keeps_cache_bound s1 s3.
Proof. unfold keeps_cache_bound. auto. Qed.

Lemma bound_read_node bid : preserves keeps_cache_bound (read_node bid).
Proof. intros s H. exact (read_node_bound s bid H). Qed.

Lemma bound_write_node node : preserves keeps_cache_bound (write_node node).
Proof. intros s H. exact (write_node_bound s node H). Qed.

Lemma bound_sync_header : preserves keeps_cache_bound sync_header.
Proof.
  pose proof keeps_cache_bound_refl. pose proof keeps_cache_bound_trans.
  unfold sync_header, fd_write_at.
  prim_steps ltac:(intro; assumption).
Qed.

Lemma bound_allocate_block : preserves keeps_cache_bound allocate_block.
Proof.
  pose proof keeps_cache_bound_refl. pose proof keeps_cache_bound_trans.
  pose proof bound_sync_header.
  unfold allocate_block.
  prim_steps ltac:(intro; assumption).
Qed.

Lemma bound_new_node n : preserves keeps_cache_bound (new_node n).
Proof. intros s H. exact H. Qed.

Lemma bound_assign r f : preserves keeps_cache_bound (assign r f).
Proof.
  pose proof keeps_cache_bound_refl. pose proof keeps_cache_bound_trans.
  unfold assign. prim_steps ltac:(intro; assumption).
Qed.

Lemma bound_set_root x : preserves keeps_cache_bound (modify (set_root_id x)).
Proof. intros s H. exact H. Qed.

(** X10: the cache bound is an invariant of the whole engine: from a store
    whose cache holds at most 3 entries, [search], [collect], [split_child],
    [insert_nonfull] and [insert] (under either reading of line 250) end,
    returning or raising, in a store whose cache holds at most 3 entries;
    so it holds after any run of inserts into a new index. *)
Theorem cache_bound_invariant :
  (forall s : State,
      cache_bounded s ->
      (forall fuel bid key, cache_bounded (snd (search fuel bid key s))) /\
      (forall fuel, cache_bounded (snd (collect fuel s))) /\
      (forall parent i, cache_bounded (snd (split_child parent i s))) /\
      (forall fuel node key value,
          cache_bounded (snd (insert_nonfull fuel node key value s))) /\
      (forall rd fuel key value,
          cache_bounded (snd (insert rd fuel key value s)))) /\
  (forall rd fuel pairs, cache_bounded (insert_each rd fuel pairs fresh)).
Proof.
  assert (I : forall rd fuel key value,
             preserves keeps_cache_bound (insert rd fuel key value)).
  { intros. apply tree_insert;
      auto using keeps_cache_bound_refl, bound_read_node, bound_write_node,
        bound_allocate_block, bound_new_node, bound_assign,
        bound_sync_header, bound_set_root.
    exact keeps_cache_bound_trans. }
  split.
  - intros s H. split; [| split; [| split; [| split]]].
    + intros fuel bid key.
      refine (tree_search keeps_cache_bound _ _ _ fuel bid key s H);
        auto using keeps_cache_bound_refl, bound_read_node.
      exact keeps_cache_bound_trans.
    + intro fuel.
      refine (tree_collect keeps_cache_bound _ _ _ fuel s H);
        auto using keeps_cache_bound_refl, bound_read_node.
      exact keeps_cache_bound_trans.
    + intros parent i.
      refine (tree_split_child keeps_cache_bound _ _ _ _ _ _ _ parent i s H);
        auto using keeps_cache_bound_refl, bound_read_node, bound_write_node,
          bound_allocate_block, bound_new_node, bound_assign.
      exact keeps_cache_bound_trans.
    + intros fuel node key value.
      refine (tree_insert_nonfull keeps_cache_bound _ _ _ _ _ _ _
                fuel node key value s H);
        auto using keeps_cache_bound_refl, bound_read_node, bound_write_node,
          bound_allocate_block, bound_new_node, bound_assign.
      exact keeps_cache_bound_trans.
    + intros rd fuel key value. exact (I rd fuel key value s H).
  - intros rd fuel pairs.
    assert (G : forall s, cache_bounded s ->
                cache_bounded (insert_each rd fuel pairs s)).
    { induction pairs as [| [k v] ps IH]; intros s H; cbn [insert_each].
      - exact H.
      - apply IH. exact (I rd fuel k v s H). }
    apply G. unfold cache_bounded, fresh. cbn. lia.
Qed.

Lemma cache_bound_invariant_witness :
  cache_bounded four_blocks /\
  cache_bounded (snd (search 100 1 10 four_blocks)) /\
  cache_bounded (snd (insert AsRootId 100 7 70 four_blocks)) /\
  cache_bounded (insert_each AsWritten 100 pairs_1_20 fresh).
Proof.
  assert (H : cache_bounded four_blocks)
    by (unfold cache_bounded; vm_compute; lia).
  destruct cache_bound_invariant as [A B].
  destruct (A four_blocks H) as (S & _ & _ & _ & I).
  split; [exact H |]. split; [apply S |]. split; [apply I | apply B].
Defined.

(** *** Growth *)

Lemma grows_refl s : grows s s.
Proof. unfold grows. split; lia. Qed.

Lemma grows_trans s1 s2 s3 : grows s1 s2 -> grows s2 s3 -> grows s1 s3.
Proof. unfold grows. intros [A B] [C D]. split; lia. Qed.

Lemma length_write_at (pos : Z) (data old : list byte) :
  0 <= pos -> (length old <= length (write_at pos data old))%nat.
Proof.
  intro H. unfold write_at.
  rewrite !length_app, length_firstn, length_zeros, length_skipn.
  unfold len. lia.
Qed.

Lemma grows_fd_write_at pos data : preserves grows (fd_write_at pos data).
Proof.
  intro s. unfold fd_write_at.
  destruct (seek_ok pos) eqn:E; [| apply grows_refl].
  unfold modify, grows. cbn [snd set_fd next_block_id fd].
  split; [lia |]. apply length_write_at.
  unfold seek_ok in E. apply andb_prop in E. destruct E as [E _].
  apply Z.leb_le in E. exact E.
Qed.

Lemma grows_sync_header : preserves grows sync_header.
Proof.
  pose proof grows_refl. pose proof grows_trans.
  pose proof grows_fd_write_at.
  unfold sync_header.
  apply pres_bind; [eauto | apply pres_gets; auto | intro].
  apply pres_bind; [eauto | apply pres_gets; auto | intro].
  apply pres_bind; [eauto | apply pres_lift; auto | intro]. auto.
Qed.

Lemma grows_allocate_block : preserves grows allocate_block.
Proof.
  intro s. unfold allocate_block, bind, gets, modify.
  set (s1 := set_next_block_id (next_block_id s + 1) s).
  pose proof (grows_sync_header s1) as G.
  assert (G1 : grows s s1) by (unfold grows, s1; cbn; split; lia).
  destruct (sync_header s1) as [[u | e] s2]; cbn [snd] in *;
    exact (grows_trans _ _ _ G1 G).
Qed.

Lemma grows_read_node bid : preserves grows (read_node bid).
Proof.
  intro s. destruct (same_disk_read_node bid s) as (A & _ & B & _).
  unfold grows. rewrite A, B. split; lia.
Qed.

Lemma grows_write_node node : preserves grows (write_node node).
Proof.
  intro s. destruct (fst (write_node node s)) as [u | e] eqn:E.
  - destruct (write_node_returns s node u E) as (nd & data & A & B & C).
    rewrite (write_node_ok s node nd data A B C).
    unfold grows. cbn [snd next_block_id fd]. split; [lia |].
    apply length_write_at.
    unfold seek_ok in C. apply andb_prop in C. destruct C as [C _].
    apply Z.leb_le in C. exact C.
  - rewrite (write_node_raises s node e E). apply grows_refl.
Qed.

Lemma grows_new_node n : preserves grows (new_node n).
Proof. intro s. apply (grows_refl s). Qed.

Lemma grows_assign r f : preserves grows (assign r f).
Proof.
  pose proof grows_refl. pose proof grows_trans.
  unfold assign. prim_steps ltac:(unfold grows; cbn; split; lia).
Qed.

Lemma grows_set_root x : preserves grows (modify (set_root_id x)).
Proof. intro s. apply (grows_refl s). Qed.

(** X11: nothing in the engine gives a block id back or shortens the file:
    across [search], [collect], [split_child], [insert_nonfull] and
    [insert] (either reading), returning or raising, [next_block_id] never
    decreases and the backing file never gets shorter. *)
Theorem engine_only_grows (s : State) :
  (forall fuel bid key, grows s (snd (search fuel bid key s))) /\
  (forall fuel, grows s (snd (collect fuel s))) /\
  (forall parent i, grows s (snd (split_child parent i s))) /\
  (forall fuel node key value,
      grows s (snd (insert_nonfull fuel node key value s))) /\
  (forall rd fuel key value, grows s (snd (insert rd fuel key value s))).
Proof.
  split; [| split; [| split; [| split]]].
  - intros fuel bid key.
    refine (tree_search grows _ _ _ fuel bid key s);
      auto using grows_refl, grows_read_node.
    exact grows_trans.
  - intro fuel.
    refine (tree_collect grows _ _ _ fuel s);
      auto using grows_refl, grows_read_node.
    exact grows_trans.
  - intros parent i.
    refine (tree_split_child grows _ _ _ _ _ _ _ parent i s);
      auto using grows_refl, grows_read_node, grows_write_node,
        grows_allocate_block, grows_new_node, grows_assign.
    exact grows_trans.
  - intros fuel node key value.
    refine (tree_insert_nonfull grows _ _ _ _ _ _ _ fuel node key value s);
      auto using grows_refl, grows_read_node, grows_write_node,
        grows_allocate_block, grows_new_node, grows_assign.
    exact grows_trans.
  - intros rd fuel key value.
    refine (tree_insert grows _ _ _ _ _ _ _ _ _ rd fuel key value s);
      auto using grows_refl, grows_read_node, grows_write_node,
        grows_allocate_block, grows_new_node, grows_assign,
        grows_sync_header, grows_set_root.
    exact grows_trans.
Qed.

(** *** The root *)

Lemma same_root_refl s : same_root s s.
Proof. reflexivity. Qed.

Lemma same_root_trans s1 s2 s3 :
  same_root s1 s2 -> same_root s2 s3 -> same_root s1 s3.
Proof. unfold same_root. congruence. Qed.

Lemma root_read_node bid : preserves same_root (read_node bid).
Proof. intro s. exact (proj1 (proj2 (same_disk_read_node bid s))). Qed.

Lemma root_write_node node : preserves same_root (write_node node).
Proof.
  intro s. destruct (fst (write_node node s)) as [u | e] eqn:E.
  - destruct (write_node_returns s node u E) as (nd & data & A & B & C).
    rewrite (write_node_ok s node nd data A B C). reflexivity.
  - rewrite (write_node_raises s node e E). reflexivity.
Qed.

Lemma root_sync_header : preserves same_root sync_header.
Proof.
  intro s. destruct (fst (sync_header s)) as [u | e] eqn:E.
  - destruct (header_block (root_id s) (next_block_id s)) as [buf | e] eqn:H.
    + rewrite (sync_header_ok s buf H). reflexivity.
    + rewrite (sync_header_raises s e H). reflexivity.
  - rewrite (sync_header_failed s e E). reflexivity.
Qed.

Lemma root_allocate_block : preserves same_root allocate_block.
Proof.
  intro s. unfold allocate_block, bind, gets, modify.
  set (s1 := set_next_block_id (next_block_id s + 1) s).
  pose proof (root_sync_header s1) as G.
  destruct (sync_header s1) as [[u | e] s2]; cbn [snd] in *; exact G.
Qed.

Lemma root_new_node n : preserves same_root (new_node n).
Proof. intro s. reflexivity. Qed.

Lemma root_assign r f : preserves same_root (assign r f).
Proof.
  intro s. unfold assign, bind, deref.
  destruct (nth_error (heap s) r); reflexivity.
Qed.

Lemma root_insert_nonfull fuel node key value :
  preserves same_root (insert_nonfull fuel node key value).
Proof.
  apply tree_insert_nonfull;
    auto using same_root_refl, root_read_node, root_write_node,
      root_allocate_block, root_new_node, root_assign.
  exact same_root_trans.
Qed.

(** *** Objects under assignment *)

Lemma nth_error_replace_nth_other {A} (x : A) : forall l r r',
  r <> r' -> nth_error (replace_nth r x l) r' = nth_error l r'.
Proof.
  induction l as [| y l IH]; intros r r' H; [destruct r; reflexivity |].
  destruct r, r'; cbn; try reflexivity; [congruence |].
  apply IH. congruence.
Qed.

Lemma nth_error_replace_nth_same {A} (x y : A) : forall l r,
  nth_error l r = Some y -> nth_error (replace_nth r x l) r = Some x.
Proof.
  induction l as [| z l IH]; intros r H; destruct r; cbn in *;
    try discriminate; [reflexivity |].
  apply IH. exact H.
Qed.

Lemma assign_ok (s : State) (r : ref) (f : BTreeNode -> BTreeNode)
  (n : BTreeNode) :
  nth_error (heap s) r = Some n ->
  assign r f s = (Ok tt, set_heap (replace_nth r (f n) (heap s)) s).
Proof.
  intro H. unfold assign, bind, deref. rewrite H. reflexivity.
Qed.

Lemma assign_dangling (s : State) (r : ref) (f : BTreeNode -> BTreeNode) :
  nth_error (heap s) r = None -> assign r f s = (Raise BadReference, s).
Proof.
  intro H. unfold assign, bind, deref. rewrite H. reflexivity.
Qed.

Lemma write_node_heap (s : State) (node : ref) :
  heap (snd (write_node node s)) = heap s.
Proof.
  destruct (fst (write_node node s)) as [u | e] eqn:E.
  - destruct (write_node_returns s node u E) as (nd & data & A & B & C).
    rewrite (write_node_ok s node nd data A B C). reflexivity.
  - rewrite (write_node_raises s node e E). reflexivity.
Qed.

(** The tail of the root-split branch of [insert] (lines 259-264) from the
    point where the new root object exists: it always raises, at the latest
    at line 271 of [split_child], and never reaches the assignment of
    [root_id]. *)
Lemma root_split_tail (s : State) (root new_root : ref) (new_bid : Z)
  (nr : BTreeNode) (k : M unit) :
  nth_error (heap s) new_root = Some nr ->
  children nr = None ->
  exists e s',
    (assign root (with_parent_id new_bid) ;;
     write_node root ;;
     split_child new_root 0 ;;
     k) s = (Raise e, s') /\
    root_id s' = root_id s.
Proof.
  intros Hn Hc. unfold bind.
  destruct (nth_error (heap s) root) as [rn |] eqn:Hr.
  - rewrite (assign_ok s root _ rn Hr).
    set (s1 := set_heap _ s).
    assert (H1 : exists nr', nth_error (heap s1) new_root = Some nr' /\
                             children nr' = None).
    { unfold s1. cbn [heap set_heap].
      destruct (Nat.eq_dec root new_root) as [-> | Ne].
      - rewrite (nth_error_replace_nth_same _ nr _ _ Hn).
        eexists. split; [reflexivity |].
        assert (rn = nr) by congruence. subst rn. exact Hc.
      - rewrite nth_error_replace_nth_other by exact Ne.
        exists nr. auto. }
    destruct H1 as (nr' & Hn' & Hc').
    pose proof (root_write_node root s1) as Rw.
    pose proof (write_node_heap s1 root) as Hw.
    destruct (write_node root s1) as [[u | e] s2]; cbn [snd] in *.
    + rewrite (split_child_needs_children s2 new_root nr' 0)
        by (try rewrite Hw; assumption).
      exists AttributeError, s2. split; [reflexivity | exact Rw].
    + exists e, s2. split; [reflexivity | exact Rw].
  - rewrite (assign_dangling s root _ Hr).
    exists BadReference, s. split; reflexivity.
Qed.

Lemma insert_nonempty (rd : reading) (fuel : nat) (key value : Z)
  (s : State) :
  root_id s <> 0 ->
  root_id (snd (insert rd fuel key value s)) = root_id s /\
  (forall r rn,
      fst (read_node (root_id s) s) = Ok r ->
      nth_error (heap (snd (read_node (root_id s) s))) r = Some rn ->
      len (keys rn) = MAX_KEYS ->
      exists e, fst (insert rd fuel key value s) = Raise e).
Proof.
  intro Hroot. remember (insert rd fuel key value s) as p eqn:Hp.
  unfold insert in Hp. unfold bind at 1, gets at 1 in Hp.
  destruct (root_id s =? 0) eqn:E0; [apply Z.eqb_eq in E0; contradiction |].
  unfold bind at 1, gets at 1 in Hp. unfold bind at 1 in Hp.
  pose proof (root_read_node (root_id s) s) as R1.
  destruct (read_node (root_id s) s) as [[root | e] s1]; cbn [fst snd] in *;
    [| subst p; split; [exact R1 | intros ? ? H; discriminate H]].
  unfold bind at 1, deref at 1 in Hp.
  destruct (nth_error (heap s1) root) as [rn |] eqn:Hrn;
    [| subst p; split; [exact R1 |
               intros r rn Hr Hn _; apply Ok_inj in Hr; subst r;
               congruence]].
  destruct (len (keys rn) =? MAX_KEYS) eqn:Efull.
  - assert (G : exists e s',
               (new_bid <- allocate_block ;;
                rn0 <- deref root ;;
                new_root <-
                  new_node (BTreeNode_init new_bid 0 [] [] [block_id rn0]) ;;
                assign root (with_parent_id new_bid) ;;
                write_node root ;;
                split_child new_root 0 ;;
                modify (set_root_id new_bid) ;;
                sync_header ;;
                insert_nonfull fuel new_root key value) s1 = (Raise e, s') /\
               root_id s' = root_id s1).
    { unfold bind at 1.
      pose proof (root_allocate_block s1) as R2.
      destruct (allocate_block s1) as [[new_bid | e] s2]; cbn [snd] in R2;
        [| exists e, s2; split; [reflexivity | exact R2]].
      unfold bind at 1, deref at 1.
      destruct (nth_error (heap s2) root) as [rn0 |];
        [| exists BadReference, s2; split; [reflexivity | exact R2]].
      unfold bind at 1, new_node at 1.
      set (nr := BTreeNode_init new_bid 0 [] [] [block_id rn0]).
      set (s3 := set_heap (heap s2 ++ [nr]) s2).
      destruct (root_split_tail s3 root (length (heap s2)) new_bid nr
                  (modify (set_root_id new_bid) ;;
                   sync_header ;;
                   insert_nonfull fuel (length (heap s2)) key value))
        as (e & s' & Eq & Rr).
      { unfold s3. cbn [heap set_heap]. rewrite nth_error_app2 by lia.
        rewrite Nat.sub_diag. reflexivity. }
      { reflexivity. }
      exists e, s'. split; [exact Eq |].
      rewrite Rr. exact R2. }
    destruct G as (e & s' & Eq & Rr). rewrite Eq in Hp. subst p.
    cbn [fst snd].
    split; [unfold same_root in R1; congruence |].
    intros r rn' _ _ _. exists e. reflexivity.
  - subst p. split.
    + pose proof (root_insert_nonfull fuel root key value s1) as R2.
      unfold same_root in *. congruence.
    + intros r rn' Hr Hn Hl. apply Ok_inj in Hr. subst r.
      assert (rn' = rn) by congruence. subst rn'.
      rewrite Hl, Z.eqb_refl in Efull. discriminate.
Qed.

Lemma insert_as_written_root (fuel : nat) (key value : Z) (s : State) :
  root_id (snd (insert AsWritten fuel key value s)) = root_id s.
Proof.
  destruct (Z.eq_dec (root_id s) 0) as [E | N].
  - unfold insert. unfold bind at 1, gets at 1. rewrite E.
    change (0 =? 0) with true. cbv iota.
    rewrite <- E.
    refine ((_ : preserves same_root _) s).
    pose proof same_root_refl. pose proof same_root_trans.
    pose proof root_allocate_block. pose proof root_new_node.
    pose proof root_assign. pose proof root_write_node.
    unfold line_250, syn_header. tree_steps.
  - exact (proj1 (insert_nonempty AsWritten fuel key value s N)).
Qed.

(** X12: [insert] never replaces the root of a non-empty tree: from any
    store with [root_id <> 0], whatever it returns or raises, [root_id] is
    the same afterwards, and when the root read has [MAX_KEYS] keys the call
    raises (the split of a full root stops in [split_child], whose new
    parent has no [children] attribute) instead of inserting.  With line
    250 as written [insert] never changes [root_id] at all. *)
Theorem insert_never_replaces_root :
  forall (rd : reading) (fuel : nat) (key value : Z) (s : State),
    (root_id s <> 0 ->
     root_id (snd (insert rd fuel key value s)) = root_id s /\
     (forall r rn,
         fst (read_node (root_id s) s) = Ok r ->
         nth_error (heap (snd (read_node (root_id s) s))) r = Some rn ->
         len (keys rn) = MAX_KEYS ->
         exists e, fst (insert rd fuel key value s) = Raise e)) /\
    root_id (snd (insert AsWritten fuel key value s)) = root_id s.
Proof.
  intros rd fuel key value s. split.
  - apply insert_nonempty.
  - apply insert_as_written_root.
Qed.

Lemma insert_never_replaces_root_witness :
  (root_id full_root_store <> 0 /\
   fst (read_node (root_id full_root_store) full_root_store) = Ok 0%nat /\
   nth_error
     (heap (snd (read_node (root_id full_root_store) full_root_store)))
     0%nat = Some (full_leaf 1) /\
   len (keys (full_leaf 1)) = MAX_KEYS) /\
  root_id (snd (insert AsRootId 100 20 120 full_root_store)) =
  root_id full_root_store /\
  exists e, fst (insert AsRootId 100 20 120 full_root_store) = Raise e.
Proof.
  assert (A : root_id full_root_store <> 0) by (vm_compute; discriminate).
  assert (B : fst (read_node (root_id full_root_store) full_root_store)
              = Ok 0%nat) by (vm_compute; reflexivity).
  assert (C : nth_error
                (heap (snd (read_node (root_id full_root_store)
                              full_root_store))) 0%nat
              = Some (full_leaf 1)) by (vm_compute; reflexivity).
  assert (D : len (keys (full_leaf 1)) = MAX_KEYS)
    by (vm_compute; reflexivity).
  split; [split; [exact A | split; [exact B | split; [exact C | exact D]]] |].
  destruct (insert_never_replaces_root AsRootId 100 20 120 full_root_store)
    as [H _].
  destruct (H A) as [R F].
  split; [exact R | exact (F 0%nat (full_leaf 1) B C D)].
Defined.

(** ** Insertion into a leaf *)

Lemma getitem_of_nat {A} (l : list A) (m : nat) :
  getitem l (Z.of_nat m) =
  match nth_error l m with
  | Some x => Ok x
  | None => Raise IndexError
  end.
Proof.
  unfold getitem.
  destruct (Z.of_nat m <? 0) eqn:E; [apply Z.ltb_lt in E; lia |].
  rewrite E, Nat2Z.id. reflexivity.
Qed.

Lemma setitem_of_nat {A} (l : list A) (m : nat) (x : A) :
  (m < length l)%nat -> setitem l (Z.of_nat m) x = Ok (replace_nth m x l).
Proof.
  intro H. unfold setitem.
  destruct (Z.of_nat m <? 0) eqn:E; [apply Z.ltb_lt in E; lia |].
  rewrite E. cbn [orb].
  destruct (len l <=? Z.of_nat m) eqn:F.
  - apply Z.leb_le in F. unfold len in F. lia.
  - rewrite Nat2Z.id. reflexivity.
Qed.

Lemma replace_nth_app_length {A} (y : A) : forall l1 x l2,
  replace_nth (length l1) y (l1 ++ x :: l2) = l1 ++ y :: l2.
Proof.
  induction l1 as [| a l1 IH]; intros x l2; cbn; [reflexivity |].
  rewrite IH. reflexivity.
Qed.

Lemma replace_nth_twice {A} (x y : A) : forall l r,
  replace_nth r y (replace_nth r x l) = replace_nth r y l.
Proof.
  induction l as [| a l IH]; intro r; destruct r; cbn; try reflexivity.
  rewrite IH. reflexivity.
Qed.

Lemma replace_nth_same {A} (x : A) : forall l r,
  nth_error l r = Some x -> replace_nth r x l = l.
Proof.
  induction l as [| a l IH]; intros r H; destruct r; cbn in *;
    try discriminate.
  - congruence.
  - rewrite IH by exact H. reflexivity.
Qed.

Lemma firstn_S_nth {A} (x : A) : forall l m,
  nth_error l m = Some x -> firstn (S m) l = firstn m l ++ [x].
Proof.
  induction l as [| a l IH]; intros m H; destruct m; cbn in *;
    try discriminate.
  - congruence.
  - rewrite <- (IH m H). reflexivity.
Qed.

Lemma skipn_nth {A} (x : A) : forall l m,
  nth_error l m = Some x -> skipn m l = x :: skipn (S m) l.
Proof.
  induction l as [| a l IH]; intros m H; destruct m; cbn in *;
    try discriminate.
  - congruence.
  - exact (IH m H).
Qed.

Lemma shifted_full {A} (l : list A) (d : A) :
  shifted l d (length l) = l ++ [d].
Proof.
  unfold shifted. rewrite firstn_all, skipn_all, nth_overflow by lia.
  reflexivity.
Qed.

Lemma shifted_length {A} (l : list A) (d : A) (n : nat) :
  (n <= length l)%nat -> length (shifted l d n) = S (length l).
Proof.
  intro H. unfold shifted. rewrite length_app. cbn [length].
  rewrite length_firstn, length_skipn. lia.
Qed.

Lemma shifted_below {A} (l : list A) (d : A) (n m : nat) :
  (m < n)%nat -> (n <= length l)%nat ->
  nth_error (shifted l d n) m = nth_error l m.
Proof.
  intros Hm Hn. unfold shifted.
  rewrite nth_error_app1 by (rewrite length_firstn; lia).
  rewrite nth_error_firstn.
  destruct (Nat.ltb m n) eqn:E; [reflexivity |].
  apply Nat.ltb_ge in E. lia.
Qed.

Lemma shifted_step {A} (l : list A) (d x : A) (m : nat) :
  nth_error l m = Some x ->
  replace_nth (S m) x (shifted l d (S m)) = shifted l d m.
Proof.
  intro H.
  assert (L : (m < length l)%nat)
    by (apply nth_error_Some; rewrite H; discriminate).
  unfold shifted.
  replace (S m) with (length (firstn (S m) l)) at 1
    by (rewrite length_firstn; lia).
  rewrite replace_nth_app_length.
  rewrite (firstn_S_nth x l m H), (skipn_nth x l m H), <- app_assoc.
  rewrite (nth_error_nth l m d H). reflexivity.
Qed.

Lemma shifted_final {A} (l : list A) (d y : A) (n : nat) :
  (n <= length l)%nat ->
  replace_nth n y (shifted l d n) = insert_at n y l.
Proof.
  intro H. unfold shifted, insert_at.
  replace n with (length (firstn n l)) at 1 by (rewrite length_firstn; lia).
  apply replace_nth_app_length.
Qed.

Lemma node_same_lists (nd : BTreeNode) :
  with_values (values nd) (with_keys (keys nd) nd) = nd.
Proof. destruct nd. reflexivity. Qed.

Lemma set_heap_same (s : State) : set_heap (heap s) s = s.
Proof. destruct s. reflexivity. Qed.

Lemma bind_ok {A B} (m : M A) (k : A -> M B) (s s1 : State) (a : A) :
  m s = (Ok a, s1) -> bind m k s = k a s1.
Proof. intro H. unfold bind. rewrite H. reflexivity. Qed.

Lemma bind_lift_ok {A B} (a : A) (k : A -> M B) (s : State) :
  bind (lift (Ok a)) k s = k a s.
Proof. reflexivity. Qed.

Lemma deref_ok (s : State) (r : ref) (n : BTreeNode) :
  nth_error (heap s) r = Some n -> deref r s = (Ok n, s).
Proof. intro H. unfold deref. rewrite H. reflexivity. Qed.

Lemma ins_pos_le (key : Z) (ks : list Z) : forall n,
  (ins_pos n key ks <= n)%nat.
Proof.
  induction n as [| m IH]; cbn [ins_pos]; [lia |].
  destruct (nth_error ks m) as [k |]; [| lia].
  destruct (key <? k); lia.
Qed.

(** The shifting loop, run from position [n] on a node whose lists are in
    the shifted state [n], leaves them in the shifted state of the position
    where the scan stops, and returns that position less one. *)
Lemma shift_loop_spec (K V : list Z) (key : Z) (node : ref) :
  length V = length K ->
  forall (n : nat) (s : State) (nd : BTreeNode),
    (n <= length K)%nat ->
    nth_error (heap s) node = Some nd ->
    keys nd = shifted K 0 n ->
    values nd = shifted V 0 n ->
    shift_loop n node key s =
    (Ok (Z.of_nat (ins_pos n key K) - 1),
     set_heap
       (replace_nth node
          (with_values (shifted V 0 (ins_pos n key K))
             (with_keys (shifted K 0 (ins_pos n key K)) nd))
          (heap s)) s).
Proof.
  intro HV. induction n as [| m IH]; intros s nd Hn Hnd Hk Hv;
    cbn [shift_loop ins_pos].
  - rewrite <- Hk, <- Hv, node_same_lists, (replace_nth_same _ _ _ Hnd),
      set_heap_same. reflexivity.
  - destruct (nth_error K m) as [k |] eqn:Ek;
      [| apply nth_error_None in Ek; lia].
    destruct (nth_error V m) as [v |] eqn:Ev;
      [| apply nth_error_None in Ev; lia].
    rewrite (bind_ok (deref node) _ s s nd (deref_ok s node nd Hnd)).
    rewrite Hk at 1. rewrite getitem_of_nat, shifted_below, Ek by lia.
    rewrite bind_lift_ok.
    destruct (key <? k) eqn:Elt.
    + replace (Z.of_nat m + 1) with (Z.of_nat (S m)) by lia.
      rewrite Hk at 1.
      rewrite setitem_of_nat by (rewrite shifted_length; lia).
      rewrite bind_lift_ok, (shifted_step K 0 k m Ek).
      rewrite (bind_ok _ _ s _ tt (assign_ok s node _ nd Hnd)).
      set (nd1 := with_keys (shifted K 0 m) nd).
      set (s1 := set_heap (replace_nth node nd1 (heap s)) s).
      assert (Hnd1 : nth_error (heap s1) node = Some nd1)
        by exact (nth_error_replace_nth_same nd1 nd _ _ Hnd).
      rewrite (bind_ok (deref node) _ s1 s1 nd1 (deref_ok s1 node nd1 Hnd1)).
      change (values nd1) with (values nd). rewrite Hv at 1.
      rewrite getitem_of_nat, shifted_below, Ev by lia.
      rewrite bind_lift_ok. rewrite Hv at 1.
      rewrite setitem_of_nat by (rewrite shifted_length; lia).
      rewrite bind_lift_ok, (shifted_step V 0 v m Ev).
      rewrite (bind_ok _ _ s1 _ tt (assign_ok s1 node _ nd1 Hnd1)).
      set (nd2 := with_values (shifted V 0 m) nd1).
      set (s2 := set_heap (replace_nth node nd2 (heap s1)) s1).
      assert (Hnd2 : nth_error (heap s2) node = Some nd2)
        by exact (nth_error_replace_nth_same nd2 nd1 _ _ Hnd1).
      rewrite (IH s2 nd2 ltac:(lia) Hnd2 eq_refl eq_refl).
      f_equal. unfold s2, s1. cbn [heap set_heap fd root_id next_block_id cache].
      rewrite !replace_nth_twice. reflexivity.
    + replace (Z.of_nat (S m) - 1) with (Z.of_nat m) by lia.
      rewrite <- Hk, <- Hv, node_same_lists, (replace_nth_same _ _ _ Hnd),
        set_heap_same. reflexivity.
Qed.

(** On a leaf whose lists have equal length, [insert_nonfull] amounts to
    replacing the object by [leaf_with key value] of it and calling
    [write_node]. *)
Lemma insert_nonfull_leaf_eq (fuel : nat) (s : State) (node : ref)
  (nd : BTreeNode) (key value : Z) :
  nth_error (heap s) node = Some nd ->
  is_leaf nd = true ->
  length (values nd) = length (keys nd) ->
  insert_nonfull (S fuel) node key value s =
  write_node node
    (set_heap (replace_nth node (leaf_with key value nd) (heap s)) s).
Proof.
  intros Hnd Hleaf HV. cbn [insert_nonfull].
  rewrite (bind_ok (deref node) _ s s nd (deref_ok s node nd Hnd)).
  rewrite Hleaf.
  rewrite (bind_ok _ _ s _ tt (assign_ok s node _ nd Hnd)).
  set (nd1 := with_keys (keys nd ++ [0]) nd).
  set (s1 := set_heap (replace_nth node nd1 (heap s)) s).
  assert (Hnd1 : nth_error (heap s1) node = Some nd1)
    by exact (nth_error_replace_nth_same nd1 nd _ _ Hnd).
  rewrite (bind_ok _ _ s1 _ tt (assign_ok s1 node _ nd1 Hnd1)).
  set (nd2 := with_values (values nd1 ++ [0]) nd1).
  set (s2 := set_heap (replace_nth node nd2 (heap s1)) s1).
  assert (Hnd2 : nth_error (heap s2) node = Some nd2)
    by exact (nth_error_replace_nth_same nd2 nd1 _ _ Hnd1).
  replace (Z.to_nat (len (keys nd) - 1 + 1)) with (length (keys nd))
    by (unfold len; lia).
  set (p := ins_pos (length (keys nd)) key (keys nd)).
  assert (Hp : (p <= length (keys nd))%nat) by apply ins_pos_le.
  rewrite (bind_ok _ _ s2 _ _
             (shift_loop_spec (keys nd) (values nd) key node HV
                (length (keys nd)) s2 nd2 ltac:(lia) Hnd2
                (eq_sym (shifted_full (keys nd) 0))
                ltac:(rewrite <- HV; exact (eq_sym (shifted_full (values nd) 0))))).
  fold p.
  set (nd3 := with_values (shifted (values nd) 0 p)
                (with_keys (shifted (keys nd) 0 p) nd2)).
  set (s3 := set_heap (replace_nth node nd3 (heap s2)) s2).
  assert (Hnd3 : nth_error (heap s3) node = Some nd3)
    by exact (nth_error_replace_nth_same nd3 nd2 _ _ Hnd2).
  rewrite (bind_ok (deref node) _ s3 s3 nd3 (deref_ok s3 node nd3 Hnd3)).
  replace (Z.of_nat p - 1 + 1) with (Z.of_nat p) by lia.
  change (keys nd3) with (shifted (keys nd) 0 p).
  rewrite setitem_of_nat by (rewrite shifted_length; lia).
  rewrite bind_lift_ok, shifted_final by lia.
  rewrite (bind_ok _ _ s3 _ tt (assign_ok s3 node _ nd3 Hnd3)).
  set (nd4 := with_keys (insert_at p key (keys nd)) nd3).
  set (s4 := set_heap (replace_nth node nd4 (heap s3)) s3).
  assert (Hnd4 : nth_error (heap s4) node = Some nd4)
    by exact (nth_error_replace_nth_same nd4 nd3 _ _ Hnd3).
  rewrite (bind_ok (deref node) _ s4 s4 nd4 (deref_ok s4 node nd4 Hnd4)).
  change (values nd4) with (shifted (values nd) 0 p).
  rewrite setitem_of_nat by (rewrite shifted_length; lia).
  rewrite bind_lift_ok, shifted_final by lia.
  rewrite (bind_ok _ _ s4 _ tt (assign_ok s4 node _ nd4 Hnd4)).
  f_equal. unfold s4, s3, s2, s1.
  cbn [heap set_heap fd root_id next_block_id cache].
  rewrite !replace_nth_twice. reflexivity.
Qed.

(** *** The position the scan finds *)

(** Every key from the position on is greater than the new key. *)
Lemma ins_pos_after (key : Z) (ks : list Z) : forall n j k,
  (ins_pos n key ks <= j < n)%nat -> nth_error ks j = Some k -> key < k.
Proof.
  induction n as [| m IH]; intros j k Hj Hk; cbn [ins_pos] in Hj; [lia |].
  destruct (nth_error ks m) as [k0 |] eqn:E; [| lia].
  destruct (key <? k0) eqn:L; [| lia].
  destruct (Nat.eq_dec j m) as [-> | Ne].
  - apply Z.ltb_lt in L. congruence.
  - apply (IH j k); [lia | exact Hk].
Qed.

(** The key just before the position, if any, is not greater. *)
Lemma ins_pos_before (key : Z) (ks : list Z) : forall n p,
  (n <= length ks)%nat -> ins_pos n key ks = S p ->
  exists k, nth_error ks p = Some k /\ k <= key.
Proof.
  induction n as [| m IH]; intros p Hn Hp; cbn [ins_pos] in Hp;
    [discriminate |].
  destruct (nth_error ks m) as [k0 |] eqn:E;
    [| apply nth_error_None in E; lia].
  destruct (key <? k0) eqn:L.
  - apply (IH p); [lia | exact Hp].
  - injection Hp as <-. exists k0. split; [exact E |].
    apply Z.ltb_ge in L. exact L.
Qed.

Lemma ss_app_inv {A} (R : A -> A -> Prop) : forall l1 l2,
  StronglySorted R (l1 ++ l2) ->
  StronglySorted R l1 /\ StronglySorted R l2 /\
  (forall a b, In a l1 -> In b l2 -> R a b).
Proof.
  induction l1 as [| x l1 IH]; intros l2 H; cbn in *.
  - split; [constructor | split; [exact H | intros a b []]].
  - apply StronglySorted_inv in H. destruct H as [H F].
    destruct (IH l2 H) as (S1 & S2 & C).
    rewrite Forall_app in F. destruct F as [F1 F2].
    split; [constructor; assumption | split; [exact S2 |]].
    intros a b [<- | Ha] Hb.
    + rewrite Forall_forall in F2. apply F2. exact Hb.
    + apply C; assumption.
Qed.

Lemma ss_app {A} (R : A -> A -> Prop) : forall l1 l2,
  StronglySorted R l1 -> StronglySorted R l2 ->
  (forall a b, In a l1 -> In b l2 -> R a b) ->
  StronglySorted R (l1 ++ l2).
Proof.
  induction l1 as [| x l1 IH]; intros l2 S1 S2 C; cbn; [exact S2 |].
  apply StronglySorted_inv in S1. destruct S1 as [S1 F].
  constructor.
  - apply IH; [exact S1 | exact S2 |]. intros a b Ha Hb.
    apply C; [right; exact Ha | exact Hb].
  - rewrite Forall_app. split; [exact F |].
    rewrite Forall_forall. intros b Hb. apply C; [left; reflexivity | exact Hb].
Qed.

Lemma ss_insert {A} (R : A -> A -> Prop) (l1 l2 : list A) (x : A) :
  StronglySorted R (l1 ++ l2) ->
  (forall a, In a l1 -> R a x) -> (forall b, In b l2 -> R x b) ->
  StronglySorted R (l1 ++ x :: l2).
Proof.
  intros S Ha Hb. destruct (ss_app_inv R l1 l2 S) as (S1 & S2 & C).
  apply ss_app; [exact S1 | |].
  - constructor; [exact S2 |]. rewrite Forall_forall. exact Hb.
  - intros a b Hin [<- | Hin2]; [apply Ha; exact Hin | apply C; assumption].
Qed.

Lemma ins_pos_all_after (key : Z) (ks : list Z) :
  forall b, In b (skipn (ins_pos (length ks) key ks) ks) -> key < b.
Proof.
  intros b Hb. apply In_nth_error in Hb. destruct Hb as [j Hj].
  rewrite nth_error_skipn in Hj.
  apply (ins_pos_after key ks (length ks)
           (ins_pos (length ks) key ks + j) b); [| exact Hj].
  split; [lia |]. apply nth_error_Some. rewrite Hj. discriminate.
Qed.

(** In a sorted list every key before the position is not greater than the
    new key. *)
Lemma ins_pos_all_before (key : Z) (ks : list Z) :
  StronglySorted Z.le ks ->
  forall a, In a (firstn (ins_pos (length ks) key ks) ks) -> a <= key.
Proof.
  intros Hs a Ha.
  destruct (ins_pos (length ks) key ks) as [| p] eqn:E; [destruct Ha |].
  destruct (ins_pos_before key ks (length ks) p (le_n _) E) as (k & Hk & Hle).
  rewrite (firstn_S_nth k ks p Hk) in Ha.
  apply in_app_or in Ha. destruct Ha as [Ha | [<- | []]]; [| exact Hle].
  rewrite <- (firstn_skipn (S p) ks), (firstn_S_nth k ks p Hk) in Hs.
  destruct (ss_app_inv _ _ _ Hs) as (S1 & _).
  destruct (ss_app_inv _ _ _ S1) as (_ & _ & C).
  specialize (C a k Ha (or_introl eq_refl)). lia.
Qed.

Lemma ss_lt_le (l : list Z) : StronglySorted Z.lt l -> StronglySorted Z.le l.
Proof.
  induction 1 as [| x l S IH F]; constructor; [exact IH |].
  rewrite Forall_forall in *. intros y Hy. specialize (F y Hy). lia.
Qed.

Lemma insert_at_sorted_le (key : Z) (ks : list Z) :
  StronglySorted Z.le ks ->
  StronglySorted Z.le (insert_at (ins_pos (length ks) key ks) key ks).
Proof.
  intro S. unfold insert_at. apply ss_insert.
  - rewrite firstn_skipn. exact S.
  - apply ins_pos_all_before. exact S.
  - intros b Hb. apply ins_pos_all_after in Hb. lia.
Qed.

Lemma insert_at_sorted_lt (key : Z) (ks : list Z) :
  StronglySorted Z.lt ks -> ~ In key ks ->
  StronglySorted Z.lt (insert_at (ins_pos (length ks) key ks) key ks).
Proof.
  intros S Hnew. unfold insert_at. apply ss_insert.
  - rewrite firstn_skipn. exact S.
  - intros a Ha.
    pose proof (ins_pos_all_before key ks (ss_lt_le ks S) a Ha) as Hle.
    assert (a <> key).
    { intros ->. apply Hnew.
      rewrite <- (firstn_skipn (ins_pos (length ks) key ks) ks).
      apply in_or_app. left. exact Ha. }
    lia.
  - apply ins_pos_all_after.
Qed.

(** *** The pairs of the leaf *)

Lemma combine_app_eq {A B} : forall (a : list A) (b : list B) c d,
  length a = length b ->
  combine (a ++ c) (b ++ d) = combine a b ++ combine c d.
Proof.
  induction a as [| x a IH]; intros b c d H; destruct b as [| y b];
    cbn in *; try discriminate; [reflexivity |].
  rewrite IH by congruence. reflexivity.
Qed.

Lemma combine_skipn {A B} : forall (n : nat) (a : list A) (b : list B),
  combine (skipn n a) (skipn n b) = skipn n (combine a b).
Proof.
  induction n as [| n IH]; intros a b; [reflexivity |].
  destruct a as [| x a]; [reflexivity |].
  destruct b as [| y b]; cbn [skipn combine].
  - destruct (skipn n a); reflexivity.
  - apply IH.
Qed.

Lemma combine_insert_at {A B} (p : nat) (x : A) (y : B) (a : list A)
  (b : list B) :
  length b = length a -> (p <= length a)%nat ->
  combine (insert_at p x a) (insert_at p y b) =
  insert_at p (x, y) (combine a b).
Proof.
  intros H Hp. unfold insert_at.
  rewrite combine_app_eq by (rewrite !length_firstn; lia).
  cbn [combine]. rewrite combine_skipn, combine_firstn. reflexivity.
Qed.

Lemma insert_at_perm {A} (p : nat) (x : A) (l : list A) :
  Permutation (insert_at p x l) (x :: l).
Proof.
  unfold insert_at. symmetry.
  rewrite <- (firstn_skipn p l) at 1. apply Permutation_middle.
Qed.

Lemma length_insert_at {A} (p : nat) (x : A) (l : list A) :
  length (insert_at p x l) = S (length l).
Proof.
  unfold insert_at. rewrite length_app. cbn [length].
  rewrite length_firstn, length_skipn. lia.
Qed.

Lemma leaf_with_props (key value : Z) (nd : BTreeNode) :
  length (values nd) = length (keys nd) ->
  let nd' := leaf_with key value nd in
  Permutation (combine (keys nd') (values nd'))
              ((key, value) :: combine (keys nd) (values nd)) /\
  length (keys nd') = S (length (keys nd)) /\
  length (values nd') = length (keys nd') /\
  (StronglySorted Z.le (keys nd) -> StronglySorted Z.le (keys nd')) /\
  (StronglySorted Z.lt (keys nd) -> ~ In key (keys nd) ->
   StronglySorted Z.lt (keys nd')).
Proof.
  intros HV nd'. unfold nd', leaf_with.
  cbn [keys values with_keys with_values].
  set (p := ins_pos (length (keys nd)) key (keys nd)).
  assert (Hp : (p <= length (keys nd))%nat) by apply ins_pos_le.
  split.
  { rewrite (combine_insert_at p key value _ _ HV Hp). apply insert_at_perm. }
  split; [apply length_insert_at |].
  split; [rewrite !length_insert_at; congruence |].
  split; [apply insert_at_sorted_le | apply insert_at_sorted_lt].
Qed.

(** X13: on a leaf object with as many values as keys, [insert_nonfull]
    puts the pair in right after the last key not greater than the new key,
    shifting the later entries, and then calls [write_node] on the object;
    the leaf's pairs afterwards are the old pairs and the new one, one more
    than before, and keys that were in increasing order stay so (strictly,
    if the key was not there yet).  No equal key is looked for and no other
    field of the leaf changes. *)
Theorem insert_nonfull_leaf (fuel : nat) (s : State) (node : ref)
  (nd : BTreeNode) (key value : Z) :
  nth_error (heap s) node = Some nd ->
  is_leaf nd = true ->
  length (values nd) = length (keys nd) ->
  let nd' := leaf_with key value nd in
  insert_nonfull (S fuel) node key value s =
  write_node node (set_heap (replace_nth node nd' (heap s)) s) /\
  Permutation (combine (keys nd') (values nd'))
              ((key, value) :: combine (keys nd) (values nd)) /\
  length (keys nd') = S (length (keys nd)) /\
  length (values nd') = length (keys nd') /\
  (StronglySorted Z.le (keys nd) -> StronglySorted Z.le (keys nd')) /\
  (StronglySorted Z.lt (keys nd) -> ~ In key (keys nd) ->
   StronglySorted Z.lt (keys nd')) /\
  block_id nd' = block_id nd /\ parent_id nd' = parent_id nd /\
  num_children nd' = num_children nd /\ children nd' = children nd.
Proof.
  intros Hnd Hleaf HV nd'.
  split; [exact (insert_nonfull_leaf_eq fuel s node nd key value Hnd Hleaf HV) |].
  destruct (leaf_with_props key value nd HV) as (P & L1 & L2 & S1 & S2).
  fold nd' in P, L1, L2, S1, S2.
  split; [exact P |]. split; [exact L1 |]. split; [exact L2 |].
  split; [exact S1 |]. split; [exact S2 |].
  repeat split.
Qed.

Lemma insert_nonfull_leaf_witness :
  (nth_error (heap four_blocks) 2%nat = Some (one_pair_leaf 3 30 300) /\
   is_leaf (one_pair_leaf 3 30 300) = true /\
   length (values (one_pair_leaf 3 30 300)) =
   length (keys (one_pair_leaf 3 30 300))) /\
  insert_nonfull 1 2%nat 7 70 four_blocks =
  write_node 2%nat
    (set_heap
       (replace_nth 2%nat (leaf_with 7 70 (one_pair_leaf 3 30 300))
          (heap four_blocks)) four_blocks) /\
  keys (leaf_with 7 70 (one_pair_leaf 3 30 300)) = [7; 30] /\
  values (leaf_with 7 70 (one_pair_leaf 3 30 300)) = [70; 300].
Proof.
  assert (A : nth_error (heap four_blocks) 2%nat
              = Some (one_pair_leaf 3 30 300)) by (vm_compute; reflexivity).
  assert (B : is_leaf (one_pair_leaf 3 30 300) = true) by reflexivity.
  assert (C : length (values (one_pair_leaf 3 30 300)) =
              length (keys (one_pair_leaf 3 30 300))) by reflexivity.
  split; [split; [exact A | split; [exact B | exact C]] |].
  destruct (insert_nonfull_leaf 0 four_blocks 2%nat _ 7 70 A B C) as (E & _).
  split; [exact E |]. split; reflexivity.
Defined.

(** ** Traversing and filling a cached leaf *)

(** On a leaf object found in the cache [traverse] appends the leaf's pairs
    in stored order; the store changes only in the order of the cache. *)
Lemma traverse_cached_leaf (fuel : nat) (bid : Z) (pairs : list (Z * Z))
  (s : State) (r : ref) (nd : BTreeNode) :
  bid <> 0 ->
  cache_get bid (cache s) = Some r ->
  nth_error (heap s) r = Some nd ->
  is_leaf nd = true ->
  length (values nd) = length (keys nd) ->
  traverse (S fuel) bid pairs s =
  (Ok (pairs ++ combine (keys nd) (values nd)),
   set_cache (cache_pop bid (cache s) ++ [(bid, r)]) s).
Proof.
  intros Hb Hc Hn Hl HV. cbn [traverse].
  destruct (bid =? 0) eqn:E; [apply Z.eqb_eq in E; contradiction |].
  rewrite (bind_ok _ _ s _ r (read_node_hit s bid r Hc)).
  set (s1 := set_cache _ s).
  rewrite (bind_ok (deref r) _ s1 s1 nd (deref_ok s1 r nd Hn)).
  rewrite Hl. cbn [negb].
  match goal with
  | |- bind (?loop 0 (keys nd) pairs) _ _ = _ =>
      assert (L : forall ks i ps,
                 (i + length ks <= length (values nd))%nat ->
                 loop (Z.of_nat i) ks ps s1 =
                 (Ok (ps ++ combine ks (skipn i (values nd))), s1))
  end.
  { induction ks as [| k ks IH]; intros i ps Hi.
    - cbn. rewrite app_nil_r. reflexivity.
    - cbn [length] in Hi.
      destruct (nth_error (values nd) i) as [v |] eqn:Ev;
        [| apply nth_error_None in Ev; lia].
      unfold bind at 1, ret at 1.
      rewrite getitem_of_nat, Ev, bind_lift_ok.
      replace (Z.of_nat i + 1) with (Z.of_nat (S i)) by lia.
      rewrite IH by lia.
      rewrite (skipn_nth v (values nd) i Ev). cbn [combine].
      rewrite <- app_assoc. reflexivity. }
  rewrite (bind_ok _ _ s1 s1 _ (L (keys nd) 0%nat pairs ltac:(lia))).
  reflexivity.
Qed.

Lemma collect_cached_leaf (fuel : nat) (s : State) (r : ref)
  (nd : BTreeNode) :
  root_id s <> 0 ->
  cache_get (root_id s) (cache s) = Some r ->
  nth_error (heap s) r = Some nd ->
  is_leaf nd = true ->
  length (values nd) = length (keys nd) ->
  collect (S fuel) s =
  (Ok (combine (keys nd) (values nd)),
   set_cache (cache_pop (root_id s) (cache s) ++ [(root_id s, r)]) s).
Proof.
  intros Hb Hc Hn Hl HV. unfold collect, bind at 1, gets at 1.
  exact (traverse_cached_leaf fuel (root_id s) [] s r nd Hb Hc Hn Hl HV).
Qed.

(** X14: when the root is a leaf object held in the cache, with as many
    values as keys, [collect] returns exactly the leaf's pairs in stored
    order and changes nothing but the place of the root in the cache
    order. *)
Theorem collect_one_leaf (fuel : nat) (s : State) (r : ref)
  (nd : BTreeNode) :
  root_id s <> 0 ->
  cache_get (root_id s) (cache s) = Some r ->
  nth_error (heap s) r = Some nd ->
  is_leaf nd = true ->
  length (values nd) = length (keys nd) ->
  collect (S fuel) s =
  (Ok (combine (keys nd) (values nd)),
   set_cache (cache_pop (root_id s) (cache s) ++ [(root_id s, r)]) s).
Proof. apply collect_cached_leaf. Qed.

Lemma collect_one_leaf_witness :
  (root_id full_root_store <> 0 /\
   cache_get (root_id full_root_store) (cache full_root_store) = Some 0%nat /\
   nth_error (heap full_root_store) 0%nat = Some (full_leaf 1) /\
   is_leaf (full_leaf 1) = true /\
   length (values (full_leaf 1)) = length (keys (full_leaf 1))) /\
  fst (collect 1 full_root_store) = Ok (firstn 19 pairs_1_20).
Proof.
  assert (A : root_id full_root_store <> 0) by (vm_compute; discriminate).
  assert (B : cache_get (root_id full_root_store) (cache full_root_store)
              = Some 0%nat) by (vm_compute; reflexivity).
  assert (C : nth_error (heap full_root_store) 0%nat = Some (full_leaf 1))
    by (vm_compute; reflexivity).
  assert (D : is_leaf (full_leaf 1) = true) by reflexivity.
  assert (E : length (values (full_leaf 1)) = length (keys (full_leaf 1)))
    by reflexivity.
  split; [repeat split; assumption |].
  rewrite (collect_one_leaf 0 full_root_store 0%nat (full_leaf 1) A B C D E).
  reflexivity.
Defined.











(** ** A root that has left the cache *)

(** X17: once the root block is not in the cache (evicted by writes of
    other blocks, say) the tree can be neither searched, listed nor
    extended: [read_node] of the root raises [struct.error] in
    [from_bytes], so [search], [collect] and [insert] raise it too, whatever
    the file holds, and leave the whole store as it was. *)
Theorem root_from_disk_unusable (fuel : nat) (key value : Z) (s : State) :
  root_id s <> 0 ->
  cache_get (root_id s) (cache s) = None ->
  seek_ok (root_id s * BLOCK_SIZE) = true ->
  search (S fuel) (root_id s) key s = (Raise StructError, s) /\
  collect (S fuel) s = (Raise StructError, s) /\
  insert AsRootId fuel key value s = (Raise StructError, s).
Proof.
  intros Hb Hc Hs.
  assert (Hr : read_node (root_id s) s = (Raise StructError, s)).
  { rewrite (read_node_miss s (root_id s) Hc), Hs. reflexivity. }
  assert (E : (root_id s =? 0) = false) by (apply Z.eqb_neq; exact Hb).
  split; [| split].
  - cbn [search]. rewrite E. unfold bind at 1. rewrite Hr. reflexivity.
  - unfold collect, bind at 1, gets at 1. cbn [traverse]. rewrite E.
    unfold bind at 1. rewrite Hr. reflexivity.
  - unfold insert. unfold bind at 1, gets at 1. rewrite E.
    unfold bind at 1, gets at 1. unfold bind at 1. rewrite Hr. reflexivity.
Qed.

Lemma root_from_disk_unusable_witness :
  (root_id root_evicted_store <> 0 /\
   cache_get (root_id root_evicted_store) (cache root_evicted_store) = None /\
   seek_ok (root_id root_evicted_store * BLOCK_SIZE) = true) /\
  to_bytes (one_pair_leaf 1 5 50) = Ok (block_at root_evicted_store 1) /\
  fst (search 1 (root_id root_evicted_store) 5 root_evicted_store) =
  Raise StructError /\
  fst (collect 1 root_evicted_store) = Raise StructError /\
  fst (insert AsRootId 1 7 70 root_evicted_store) = Raise StructError.
Proof.
  assert (H1 : root_id root_evicted_store <> 0)
    by (vm_compute; discriminate).
  assert (H2 : cache_get (root_id root_evicted_store)
                 (cache root_evicted_store) = None)
    by (vm_compute; reflexivity).
  assert (H3 : seek_ok (root_id root_evicted_store * BLOCK_SIZE) = true)
    by (vm_compute; reflexivity).
  split; [exact (conj H1 (conj H2 H3)) |].
  split; [vm_compute; reflexivity |].
  destruct (root_from_disk_unusable 0 5 0 root_evicted_store H1 H2 H3)
    as (A & B & _).
  destruct (root_from_disk_unusable 1 7 70 root_evicted_store H1 H2 H3)
    as (_ & _ & C).
  rewrite A, B, C. repeat split.
Defined.

(** ** What the first insert leaves behind *)

Lemma one_pair_leaf_packable (bid key value : Z) :
  in_u64 bid -> in_u64 key -> in_u64 value ->
  packable (one_pair_leaf bid key value).
Proof.
  intros Hb Hk Hv. unfold packable, one_pair_leaf, len.
  cbn [BTreeNode_init with_keys with_values block_id parent_id keys values
       num_children firstn length].
  split; [exact Hb |]. split; [apply in_u64_0 |].
  split; [unfold in_u64; lia |].
  split; [constructor; [exact Hk | constructor] |].
  split; [constructor; [exact Hv | constructor] |]. constructor.
Qed.

Lemma insert_empty_eq (fuel : nat) (key value : Z) (s : State) :
  root_id s = 0 ->
  1 <= next_block_id s -> next_block_id s * BLOCK_SIZE < 2 ^ 63 ->
  in_u64 key -> in_u64 value ->
  exists buf data,
    header_block 0 (next_block_id s + 1) = Ok buf /\
    to_bytes (one_pair_leaf (next_block_id s) key value) = Ok data /\
    insert AsRootId fuel key value s =
    (Raise AttributeError,
     mkState (write_at (next_block_id s * BLOCK_SIZE) data
                (buf ++ skipn 512 (fd s)))
             (next_block_id s)
             (next_block_id s + 1)
             (evict (cache_set (next_block_id s) (length (heap s)) (cache s)))
             (heap s ++ [one_pair_leaf (next_block_id s) key value])).
Proof.
  intros Hr Hn1 Hn2 Hk Hv.
  assert (Hbid : in_u64 (next_block_id s)).
  { unfold in_u64. unfold BLOCK_SIZE in Hn2. lia. }
  assert (Hb1 : in_u64 (next_block_id s + 1)).
  { unfold in_u64. unfold BLOCK_SIZE in Hn2. lia. }
  pose proof (header_block_ok 0 (next_block_id s + 1) in_u64_0 Hb1) as Hh.
  set (buf := MAGIC ++ _) in Hh.
  set (bid := next_block_id s) in *.
  set (s1 := mkState (buf ++ skipn 512 (fd s)) (root_id s) (bid + 1)
                     (cache s) (heap s)).
  set (leaf := one_pair_leaf bid key value).
  set (s2 := set_heap (heap s ++ [leaf]) s1).
  assert (Hn : nth_error (heap s2) (length (heap s)) = Some leaf).
  { unfold s2. cbn [heap set_heap]. rewrite nth_error_app2 by lia.
    rewrite Nat.sub_diag. reflexivity. }
  assert (Hs : seek_ok (block_id leaf * BLOCK_SIZE) = true).
  { change (block_id leaf) with bid.
    unfold seek_ok. apply andb_true_intro.
    split; [apply Z.leb_le; unfold BLOCK_SIZE; lia |].
    apply Z.ltb_lt. exact Hn2. }
  destruct (write_node_through s2 (length (heap s)) leaf Hn
              (one_pair_leaf_packable bid key value Hbid Hk Hv) Hs)
    as (data & T & W & _).
  exists buf, data. split; [exact Hh |]. split; [exact T |].
  assert (Ha : allocate_block s = (Ok bid, s1)).
  { apply allocate_block_ok. rewrite Hr. exact Hh. }
  unfold insert. unfold bind at 1, gets at 1. rewrite Hr.
  change (0 =? 0) with true. cbv iota.
  rewrite (bind_ok (suite_245 AsRootId) _ s s tt eq_refl).
  rewrite (bind_ok _ _ s s1 bid Ha).
  unfold bind at 1, new_node at 1.
  change (length (heap s1)) with (length (heap s)).
  set (n0 := BTreeNode_init bid 0 [] [] []).
  set (t0 := set_heap (heap s1 ++ [n0]) s1).
  assert (H0 : nth_error (heap t0) (length (heap s)) = Some n0).
  { unfold t0. cbn [heap set_heap s1]. rewrite nth_error_app2 by lia.
    rewrite Nat.sub_diag. reflexivity. }
  rewrite (bind_ok _ _ t0 _ tt (assign_ok t0 _ _ n0 H0)).
  set (t1 := set_heap _ t0).
  assert (H1 : nth_error (heap t1) (length (heap s))
               = Some (with_keys [key] n0))
    by exact (nth_error_replace_nth_same _ n0 _ _ H0).
  rewrite (bind_ok _ _ t1 _ tt (assign_ok t1 _ _ _ H1)).
  assert (Et : set_heap
                 (replace_nth (length (heap s))
                    (with_values [value] (with_keys [key] n0)) (heap t1))
                 t1 = s2).
  { unfold t1, t0, s2. cbn [heap set_heap fd root_id next_block_id cache].
    rewrite replace_nth_twice. unfold s1 at 1. cbn [heap].
    rewrite replace_nth_app_length. reflexivity. }
  rewrite Et, (bind_ok _ _ s2 _ tt W).
  change (block_id leaf) with bid. reflexivity.
Qed.

(** X18: with line 250 read as the assignment, on an empty tree, with the
    next block id at least 1 and small enough to seek to, and key and value
    within 64 bits, [insert] raises AttributeError at line 251 only after
    it has allocated the next block, written the one-pair leaf into it and
    set [root_id] in memory: afterwards [next_block_id] is one more, that
    block of the file holds the encoding of the leaf, and the header block
    still names root 0, so on disk the pair sits in a block nothing refers
    to.  With the line as written the call raises and changes nothing. *)
Theorem insert_empty_leaves_orphan (fuel : nat) (key value : Z) (s : State) :
  root_id s = 0 ->
  1 <= next_block_id s -> next_block_id s * BLOCK_SIZE < 2 ^ 63 ->
  in_u64 key -> in_u64 value ->
  let s' := snd (insert AsRootId fuel key value s) in
  let bid := next_block_id s in
  fst (insert AsRootId fuel key value s) = Raise AttributeError /\
  next_block_id s' = bid + 1 /\
  to_bytes (one_pair_leaf bid key value) = Ok (block_at s' bid) /\
  header_block 0 (bid + 1) = Ok (firstn 512 (fd s')) /\
  root_id s' = bid /\
  insert AsWritten fuel key value s = (Raise SyntaxError, s).
Proof.
  intros Hr Hn1 Hn2 Hk Hv.
  destruct (insert_empty_eq fuel key value s Hr Hn1 Hn2 Hk Hv)
    as (buf & data & Hh & T & E).
  cbv zeta. rewrite E. cbn [fst snd next_block_id root_id fd].
  pose proof (header_block_length _ _ _ Hh) as Lb.
  pose proof (to_bytes_length _ _ T) as Ld.
  split; [reflexivity |].
  split; [reflexivity |].
  split; [| split; [| split; [reflexivity |]]].
  - rewrite T. f_equal. unfold block_at. cbn [fd].
    change (Z.to_nat BLOCK_SIZE) with 512%nat.
    rewrite <- Ld. symmetry. apply write_at_read_back.
  - rewrite Hh. f_equal.
    assert (F : firstn 512 (buf ++ skipn 512 (fd s)) = buf).
    { rewrite firstn_app, Lb, Nat.sub_diag, <- Lb, firstn_all.
      apply app_nil_r. }
    rewrite <- F at 1. symmetry.
    apply (write_at_before _ data (buf ++ skipn 512 (fd s)) 0 512).
    + unfold BLOCK_SIZE. lia.
    + unfold BLOCK_SIZE. lia.
    + rewrite length_app, Lb. lia.
  - exact (insert_as_written_empty fuel key value s Hr).
Qed.

Lemma insert_empty_leaves_orphan_witness :
  (root_id fresh = 0 /\ 1 <= next_block_id fresh /\
   next_block_id fresh * BLOCK_SIZE < 2 ^ 63 /\ in_u64 5 /\ in_u64 50) /\
  fst (insert AsRootId 0 5 50 fresh) = Raise AttributeError /\
  next_block_id (snd (insert AsRootId 0 5 50 fresh)) = 2 /\
  root_id (snd (insert AsRootId 0 5 50 fresh)) = 1 /\
  header_block 0 2 = Ok (firstn 512 (fd (snd (insert AsRootId 0 5 50 fresh)))).
Proof.
  assert (H1 : root_id fresh = 0) by reflexivity.
  assert (H2 : 1 <= next_block_id fresh) by (vm_compute; discriminate).
  assert (H3 : next_block_id fresh * BLOCK_SIZE < 2 ^ 63) by reflexivity.
  assert (H4 : in_u64 5) by (unfold in_u64; lia).
  assert (H5 : in_u64 50) by (unfold in_u64; lia).
  split; [exact (conj H1 (conj H2 (conj H3 (conj H4 H5)))) |].
  destruct (insert_empty_leaves_orphan 0 5 50 fresh H1 H2 H3 H4 H5)
    as (E & N & _ & H & R & _).
  split; [exact E |]. split; [exact N |]. split; [exact R | exact H].
Defined.
